(** * envconfig: environment keys, tags, the struct walk and the read phase

    A shallow embedding of the Go package [envconfig] ([envconfig.go] and
    the file that declares [Field] and [fieldName]) together with the
    properties of it that the specification states.

    Conventions of the embedding.
    - A Go [string] is a sequence of bytes: Rocq's [string].  The
      rune-level code of the package ([for i, r := range part],
      [[]rune(part)], [unicode.IsUpper], [strings.ToUpper]) is embedded
      over ASCII, where a rune is one byte and the byte offset [i] of
      [range] equals the index in the rune slice.  Go identifiers of
      configuration structs are ASCII in practice; bytes above 127 are
      carried as caseless runes.  A statement that depends on the casing
      of a letter or on the byte order of the two cases is made for ASCII
      text ([ascii_text], [ascii_name]).
    - Go [int] indices are [Z].
    - A map used as a set ([map[string]struct{}]) is a [gset string]; the
      order in which Go iterates over it is the order of [elements].
    - [sort.Strings] is a sort for the byte-wise order [String.le]. *)

From Stdlib Require Import ZArith Ascii String List DecimalString.
From stdpp Require Import base decidable option list gmap strings sorting.

Local Open Scope Z_scope.

Set Warnings "-register-all,-clear-no-such-hyp".

(** ** Go's [unicode] and [strings] packages, on ASCII *)

Abbreviation rune := ascii (only parsing).

Definition rune_code (r : rune) : Z := Z.of_N (N_of_ascii r).

(** [unicode.IsUpper] *)
Definition unicode_IsUpper (r : rune) : bool :=
  (65 <=? rune_code r) && (rune_code r <=? 90).

(** [unicode.IsLower] *)
Definition unicode_IsLower (r : rune) : bool :=
  (97 <=? rune_code r) && (rune_code r <=? 122).

(** [unicode.ToUpper] *)
Definition unicode_ToUpper (r : rune) : rune :=
  if unicode_IsLower r then ascii_of_N (Z.to_N (rune_code r - 32)) else r.

(** [unicode.ToLower] *)
Definition unicode_ToLower (r : rune) : rune :=
  if unicode_IsUpper r then ascii_of_N (Z.to_N (rune_code r + 32)) else r.

(** [strings.Map] *)
Fixpoint strings_Map (f : rune -> rune) (s : string) : string :=
  match s with
  | EmptyString => EmptyString
  | String r s' => String (f r) (strings_Map f s')
  end.

(** [strings.ToUpper] and [strings.ToLower] *)
Definition strings_ToUpper (s : string) : string := strings_Map unicode_ToUpper s.
Definition strings_ToLower (s : string) : string := strings_Map unicode_ToLower s.

(** [len(s)] as a Go [int] *)
Definition len (s : string) : Z := Z.of_nat (String.length s).

(** [strings.Join] *)
Fixpoint strings_Join (elems : list string) (sep : string) : string :=
  match elems with
  | [] => ""
  | [e] => e
  | e :: rest => e +:+ sep +:+ strings_Join rest sep
  end.

(** [[]rune(s)] *)
Definition runes (s : string) : list rune := list_ascii_of_string s.

(** [n[i]] for an index that the code has checked to be in range *)
Definition rune_at (n : list rune) (i : Z) : rune :=
  nth (Z.to_nat i) n zero.

(** ** [bytes.Buffer] *)

Definition Buffer := string.

Definition WriteRune (buf : Buffer) (r : rune) : Buffer := buf +:+ String r "".

(** ** [fieldName] *)

Definition fieldName := list string.

(** [fieldName.String] *)
Definition fieldName_String (name : fieldName) : string := strings_Join name ".".

(** [fieldName.Append]: a fresh slice holding [name] followed by [newfield] *)
Definition fieldName_Append (name : fieldName) (newfield : string) : fieldName :=
  name ++ [newfield].

(** The guard computed for the rune at offset [i] of a part whose rune slice
    is [n]. *)
Definition prevOrNextLower (n : list rune) (i : Z) : bool :=
  (i + 1 <? Z.of_nat (length n)) && (i - 1 >? 0) &&
  (unicode_IsLower (rune_at n (i + 1)) || unicode_IsLower (rune_at n (i - 1))).

(** The body of the inner loop [for i, r := range part], from offset [i] on:
    [buf] receives the extra underscores, [buf2] does not. *)
Fixpoint write_part (n : list rune) (rest : string) (i : Z)
    (bufs : Buffer * Buffer) : Buffer * Buffer :=
  match rest with
  | EmptyString => bufs
  | String r rest' =>
      let buf :=
        if (i >? 0) && unicode_IsUpper r && prevOrNextLower n i
        then WriteRune bufs.1 "_" else bufs.1 in
      write_part n rest' (i + 1) (WriteRune buf r, WriteRune bufs.2 r)
  end.

(** The outer loop [for j, part := range name], from index [j] on. *)
Fixpoint write_parts (parts : list string) (j : Z)
    (bufs : Buffer * Buffer) : Buffer * Buffer :=
  match parts with
  | [] => bufs
  | part :: parts' =>
      let bufs :=
        if j >? 0 then (WriteRune bufs.1 "_", WriteRune bufs.2 "_") else bufs in
      write_parts parts' (j + 1) (write_part (runes part) part 0 bufs)
  end.

(** The four spellings collected in the map [tmp]. *)
Definition key_set (bufs : Buffer * Buffer) : gset string :=
  {[ strings_ToUpper bufs.2 ]} ∪
  ({[ strings_ToLower bufs.2 ]} ∪
   ({[ strings_ToUpper bufs.1 ]} ∪
    ({[ strings_ToLower bufs.1 ]} ∪ ∅))).

(** [sort.Strings] *)
Definition sort_Strings (l : list string) : list string :=
  merge_sort String.le l.

(** [fieldName.Keys] *)
Definition fieldName_Keys (name : fieldName) : list string :=
  let bufs := write_parts name 0 ("", "") in
  sort_Strings (elements (key_set bufs)).

(** ** Errors and outcomes *)

(** A Go [error] value: the three package-level errors, or an error made
    from a message ([fmt.Errorf], and the errors of [strconv], [time],
    [encoding/base64] and of user code). *)
Inductive error : Type :=
  | ErrUnexportedField
  | ErrNotAPointer
  | ErrInvalidValueKind
  | errorString (msg : string).

(** The [Error()] method. *)
Definition error_Error (e : error) : string :=
  match e with
  | ErrUnexportedField => "envconfig: unexported field"
  | ErrNotAPointer => "envconfig: value is not a pointer"
  | ErrInvalidValueKind => "envconfig: invalid value kind, only works on structs"
  | errorString msg => msg
  end.

(** A call that returns [(x, err)]. *)
Inductive result (A : Type) : Type :=
  | ok (x : A)
  | fail (err : error).
Arguments ok {A} x.
Arguments fail {A} err.

(** How a call that returns [error] ends: [err == nil], [err != nil], or a
    run-time panic, which no function of the package recovers. *)
Inductive outcome : Type :=
  | Nil
  | Err (err : error)
  | Panic (msg : string).

(** ** [reflect]: kinds, types and values *)

Inductive Kind : Type :=
  | Invalid | Bool
  | Int | Int8 | Int16 | Int32 | Int64
  | Uint | Uint8 | Uint16 | Uint32 | Uint64 | Uintptr
  | Float32 | Float64 | Complex64 | Complex128
  | Array | Chan | Func | Interface | Map | Ptr | Slice | String_ | Struct
  | UnsafePointer.

#[global] Instance Kind_eq_dec : EqDecision Kind.
Proof. solve_decision. Defined.

(** [Kind.String], as [%v] prints a kind. *)
Definition Kind_String (k : Kind) : string :=
  match k with
  | Invalid => "invalid" | Bool => "bool"
  | Int => "int" | Int8 => "int8" | Int16 => "int16" | Int32 => "int32"
  | Int64 => "int64"
  | Uint => "uint" | Uint8 => "uint8" | Uint16 => "uint16" | Uint32 => "uint32"
  | Uint64 => "uint64" | Uintptr => "uintptr"
  | Float32 => "float32" | Float64 => "float64"
  | Complex64 => "complex64" | Complex128 => "complex128"
  | Array => "array" | Chan => "chan" | Func => "func"
  | Interface => "interface" | Map => "map" | Ptr => "ptr" | Slice => "slice"
  | String_ => "string" | Struct => "struct" | UnsafePointer => "unsafe.Pointer"
  end.

(** The kinds that the package has no conversion rule for and that carry no
    structure here. *)
Inductive OtherKind : Type :=
  | OUintptr | OComplex64 | OComplex128 | OArray | OChan | OFunc | OInterface
  | OUnsafePointer.

Definition OtherKind_Kind (k : OtherKind) : Kind :=
  match k with
  | OUintptr => Uintptr | OComplex64 => Complex64 | OComplex128 => Complex128
  | OArray => Array | OChan => Chan | OFunc => Func | OInterface => Interface
  | OUnsafePointer => UnsafePointer
  end.

(** Widths of the integer and floating-point kinds; [W0] is the platform
    width of [int] and [uint], 64 bits. *)
Inductive width : Type := W0 | W8 | W16 | W32 | W64.

Definition bits (w : width) : Z :=
  match w with W0 => 64 | W8 => 8 | W16 => 16 | W32 => 32 | W64 => 64 end.

(** A type, as [reflect.Type] shows it to the package: its name (empty for
    an unnamed composite type, [int], [string], ... for the predeclared
    ones), whether the type or the pointer to it has the method
    [Unmarshal(string) error], and its structure.  A struct field carries
    its name, its tag under the key [envconfig], and whether it is exported.
    Types are finite trees: a struct type that contains itself through a
    pointer, on which the walk does not end, has no counterpart. *)
Inductive Type_ : Type :=
  | mkType (t_name : string) (t_unmarshal : bool) (t_shape : Shape)
with Shape : Type :=
  | SBool
  | SInt (w : width)
  | SUint (w : width)
  | SFloat (w : width)
  | SString
  | SPtr (elem : Type_)
  | SSlice (elem : Type_)
  | SMap (key elem : Type_)
  | SStruct (fields : Fields)
  | SOther (k : OtherKind)
with Fields : Type :=
  | FNil
  | FCons (f_name f_tag : string) (f_exported : bool) (f_type : Type_)
          (rest : Fields).

Scheme Type_mut := Induction for Type_ Sort Prop
  with Shape_mut := Induction for Shape Sort Prop
  with Fields_mut := Induction for Fields Sort Prop.
Combined Scheme Type_Shape_Fields_ind from Type_mut, Shape_mut, Fields_mut.

Definition t_name (t : Type_) : string := let 'mkType n _ _ := t in n.
Definition t_unmarshal (t : Type_) : bool := let 'mkType _ u _ := t in u.
Definition t_shape (t : Type_) : Shape := let 'mkType _ _ s := t in s.

(** [Type.Kind] *)
Definition Type_Kind (t : Type_) : Kind :=
  match t_shape t with
  | SBool => Bool
  | SInt W0 => Int | SInt W8 => Int8 | SInt W16 => Int16 | SInt W32 => Int32
  | SInt W64 => Int64
  | SUint W0 => Uint | SUint W8 => Uint8 | SUint W16 => Uint16
  | SUint W32 => Uint32 | SUint W64 => Uint64
  | SFloat W32 => Float32 | SFloat _ => Float64
  | SString => String_
  | SPtr _ => Ptr
  | SSlice _ => Slice
  | SMap _ _ => Map
  | SStruct _ => Struct
  | SOther k => OtherKind_Kind k
  end.

(** [Type.NumField] *)
Fixpoint NumField (fs : Fields) : nat :=
  match fs with
  | FNil => 0%nat
  | FCons _ _ _ _ rest => S (NumField rest)
  end.

(** A Go value.  A non-nil pointer is shown with the variable it points to:
    configuration values are trees, two pointers never share a target. *)
Inductive Value : Type :=
  | VBool (b : bool)
  | VInt (n : Z)
  | VUint (n : Z)
  | VFloat (ieee : Z)
  | VString (s : string)
  | VNil
  | VPtr (target : Value)
  | VSlice (elems : list Value)
  | VMap (entries : list (Value * Value))
  | VStruct (fields : list Value).

(** The zero value of a type, [reflect.Zero] and the target of
    [reflect.New]. *)
Fixpoint zero (t : Type_) : Value :=
  match t with
  | mkType _ _ s => zero_shape s
  end
with zero_shape (s : Shape) : Value :=
  match s with
  | SBool => VBool false
  | SInt _ => VInt 0
  | SUint _ => VUint 0
  | SFloat _ => VFloat 0
  | SString => VString ""
  | SPtr _ | SSlice _ | SMap _ _ => VNil
  | SStruct fs => VStruct (zero_fields fs)
  | SOther _ => VNil
  end
with zero_fields (fs : Fields) : list Value :=
  match fs with
  | FNil => []
  | FCons _ _ _ t rest => zero t :: zero_fields rest
  end.

(** [Value.IsNil] and [Value.Len] *)
Definition IsNil (v : Value) : bool :=
  match v with VNil => true | _ => false end.

Definition Value_Len (v : Value) : nat :=
  match v with VSlice l => length l | _ => 0%nat end.

(** A [reflect.Value] that refers to a variable inside the configuration
    object: the path from the object to the variable and the variable's
    type.  The object itself is threaded through the functions that write
    to it. *)
Inductive step : Type :=
  | SField (i : nat)
  | SElem.

#[global] Instance step_eq_dec : EqDecision step.
Proof. solve_decision. Defined.

Record RValue : Type := mkRValue {
  rv_type : Type_;
  rv_path : list step
}.

(** Reading the variable at a path.  On a value that has not the shape of
    its type, which Go's typing excludes, the result is [VNil]. *)
Fixpoint load (root : Value) (p : list step) : Value :=
  match p with
  | [] => root
  | SField i :: p' =>
      match root with
      | VStruct vs => match vs !! i with Some x => load x p' | None => VNil end
      | _ => VNil
      end
  | SElem :: p' =>
      match root with
      | VPtr x => load x p'
      | _ => VNil
      end
  end.

(** [Value.Set] on the variable at a path. *)
Fixpoint store (root : Value) (p : list step) (x : Value) : Value :=
  match p with
  | [] => x
  | SField i :: p' =>
      match root with
      | VStruct vs =>
          match vs !! i with
          | Some y => VStruct (<[i := store y p' x]> vs)
          | None => root
          end
      | _ => root
      end
  | SElem :: p' =>
      match root with
      | VPtr y => VPtr (store y p' x)
      | _ => root
      end
  end.

(** ** Tags *)

Record tag : Type := mkTag {
  tag_customName : string;
  tag_optional : bool;
  tag_skip : bool;
  tag_defaultVal : string;
  tag_note : string
}.

(** [strings.HasPrefix] and [strings.TrimPrefix] *)
Definition strings_HasPrefix (s pre : string) : bool := String.prefix pre s.

Definition strings_TrimPrefix (s pre : string) : string :=
  if strings_HasPrefix s pre
  then String.substring (String.length pre) (String.length s - String.length pre) s
  else s.

(** [tokens[len(tokens)-1] += string(r)] *)
Definition append_last (tokens : list string) (r : rune) : list string :=
  alter (fun t => t +:+ String r "") (length tokens - 1)%nat tokens.

(** The first loop of [parseTag], over the runes of the tag that are still
    to be read. *)
Fixpoint scan_tag (s : string) (escape : bool) (tokens : list string)
    : bool * list string :=
  match s with
  | EmptyString => (escape, tokens)
  | String r s' =>
      if negb escape && Ascii.eqb r "\" then scan_tag s' true tokens
      else if negb escape && Ascii.eqb r "," then scan_tag s' escape (tokens ++ [""])
      else scan_tag s' false (append_last tokens r)
  end.

Definition tag_tokens (s : string) : list string := (scan_tag s false [""]).2.

(** The body of the second loop: one token changes one field of the tag. *)
Definition classify (t : tag) (v : string) : tag :=
  if String.eqb v "-" then
    mkTag (tag_customName t) (tag_optional t) true (tag_defaultVal t) (tag_note t)
  else if String.eqb v "optional" then
    mkTag (tag_customName t) true (tag_skip t) (tag_defaultVal t) (tag_note t)
  else if strings_HasPrefix v "default=" then
    mkTag (tag_customName t) (tag_optional t) (tag_skip t)
          (strings_TrimPrefix v "default=") (tag_note t)
  else if strings_HasPrefix v "note=" then
    mkTag (tag_customName t) (tag_optional t) (tag_skip t) (tag_defaultVal t)
          (strings_TrimPrefix v "note=")
  else
    mkTag v (tag_optional t) (tag_skip t) (tag_defaultVal t) (tag_note t).

(** [var t tag] *)
Definition tag_zero : tag := mkTag "" false false "" "".

(** [parseTag] *)
Definition parseTag (s : string) : tag := foldl classify tag_zero (tag_tokens s).

(** Writing a directive into a tag: a backslash goes before every comma and
    every backslash of its text. *)
Fixpoint tag_escape (d : string) : string :=
  match d with
  | EmptyString => EmptyString
  | String r d' =>
      if Ascii.eqb r "\" || Ascii.eqb r ","
      then String "\" (String r (tag_escape d'))
      else String r (tag_escape d')
  end.

(** ** What the package takes from outside

    The standard library's parsers, the process environment, the
    [Unmarshal] methods of user types, and the slice tokenizer
    ([newSliceTokenizer], [scan], [text], [Err]), whose file is not among
    the sources: for a string, the tokens that successive [scan]/[text]
    calls give and the error that [Err] reports after the last one.
    Integers come back as their value, floating-point numbers as their IEEE
    754 binary64 bits. *)
Class GoRuntime : Type := {
  os_Getenv : string -> string;
  strconv_ParseBool : string -> result bool;
  strconv_ParseInt : string -> result Z;
  strconv_ParseUint : string -> result Z;
  strconv_ParseFloat : string -> result Z;
  float32_round : Z -> Z;
  time_ParseDuration : string -> result Z;
  base64_DecodeString : string -> result (list Z);
  Unmarshal : Type_ -> Value -> string -> Value * outcome;
  sliceTokenizer : string -> list string * option error
}.

(** The same runtime in another environment. *)
Definition with_env (R : GoRuntime) (env : string -> string) : GoRuntime := {|
  os_Getenv := env;
  strconv_ParseBool := @strconv_ParseBool R;
  strconv_ParseInt := @strconv_ParseInt R;
  strconv_ParseUint := @strconv_ParseUint R;
  strconv_ParseFloat := @strconv_ParseFloat R;
  float32_round := @float32_round R;
  time_ParseDuration := @time_ParseDuration R;
  base64_DecodeString := @base64_DecodeString R;
  Unmarshal := @Unmarshal R;
  sliceTokenizer := @sliceTokenizer R
|}.

(** The process environment as a finite map; [os.Getenv] gives the empty
    string for a variable that is not set. *)
Definition getenv (environ : gmap string string) (key : string) : string :=
  default "" (environ !! key).

(** ** [Field] *)

Record Field : Type := mkField {
  fld_name : fieldName;
  fld_value : RValue;
  fld_strValue : string;
  fld_customName : string;
  fld_defaultVal : string;
  fld_note : string;
  fld_optional : bool;
  fld_allowUnexported : bool
}.

(** [fld.strValue = str] *)
Definition set_strValue (fld : Field) (str : string) : Field :=
  mkField (fld_name fld) (fld_value fld) str (fld_customName fld)
          (fld_defaultVal fld) (fld_note fld) (fld_optional fld)
          (fld_allowUnexported fld).

(** [ConfInfo]: the descriptors, in the order the walk appended them. *)
Definition ConfInfo := list Field.

(** [Field.Name], [Field.Value], [Field.Default], [Field.Note],
    [Field.Optional] *)
Definition Field_Name (fld : Field) : string := fieldName_String (fld_name fld).
Definition Field_Value (fld : Field) : string := fld_strValue fld.
Definition Field_Default (fld : Field) : string := fld_defaultVal fld.
Definition Field_Note (fld : Field) : string := fld_note fld.
Definition Field_Optional (fld : Field) : bool := fld_optional fld.

(** [Field.Keys] *)
Definition Field_Keys (fld : Field) : list string :=
  if negb (String.eqb (fld_customName fld) "") then [fld_customName fld]
  else fieldName_Keys (fld_name fld).

(** ** More of Go's strings *)

(** [strings.Split(s, sep)] for a separator of one byte, the way the
    package calls it; [cur] is the piece being read. *)
Fixpoint split_from (s : string) (sep : rune) (cur : string) : list string :=
  match s with
  | EmptyString => [cur]
  | String r s' =>
      if Ascii.eqb r sep then cur :: split_from s' sep ""
      else split_from s' sep (cur +:+ String r "")
  end.

Definition strings_Split (s : string) (sep : rune) : list string :=
  split_from s sep "".

(** The slice expression [s[lo:hi]]; [None] is the run-time panic
    "slice bounds out of range". *)
Definition slice_expr (s : string) (lo hi : Z) : option string :=
  if (0 <=? lo) && (lo <=? hi) && (hi <=? len s)
  then Some (String.substring (Z.to_nat lo) (Z.to_nat (hi - lo)) s)
  else None.

(** The verb [%d] *)
Definition fmt_d (n : Z) : string := NilZero.string_of_int (Z.to_int n).

(** ** Conversion of a string to a value *)

(** [durationType] and [isDurationField]: only [time.Duration] itself is
    assignable to [time.Duration]. *)
Definition durationType : Type_ := mkType "time.Duration" false (SInt W64).

Definition isDurationField (t : Type_) : bool :=
  String.eqb (t_name t) "time.Duration".

(** [isUnmarshaler]: the method set of [*T] holds the methods of [T] and of
    [*T]; an unnamed pointer type [*T] has the methods of its element. *)
Definition isUnmarshaler (t : Type_) : bool :=
  t_unmarshal t ||
  match t with
  | mkType n _ (SPtr e) => String.eqb n "" && t_unmarshal e
  | _ => false
  end.

(** [byteSliceType] and the test [value.Type() == byteSliceType] *)
Definition byteSliceType : Type_ :=
  mkType "" false (SSlice (mkType "uint8" false (SUint W8))).

Definition is_byteSliceType (t : Type_) : bool :=
  match t with
  | mkType n _ (SSlice (mkType n' _ (SUint W8))) =>
      String.eqb n "" && String.eqb n' "uint8"
  | _ => false
  end.

(** [Value.SetInt] and [Value.SetUint] store the number at the width of the
    variable. *)
Definition wrap_int (w : width) (n : Z) : Z :=
  let m := 2 ^ bits w in (n + m / 2) mod m - m / 2.

Definition wrap_uint (w : width) (n : Z) : Z := n mod 2 ^ bits w.

Section Convert.
Context `{GoRuntime}.

(** [parseWithUnmarshaler]: [v.Addr().Interface().(Unmarshaler)] panics when
    the pointer to the type of [v] has no method [Unmarshal]. *)
Definition parseWithUnmarshaler (t : Type_) (v : Value) (str : string)
    : Value * outcome :=
  if t_unmarshal t then Unmarshal t v str
  else (v, Panic "interface conversion: missing method Unmarshal").

Definition parseDuration (v : Value) (str : string) : Value * outcome :=
  match time_ParseDuration str with
  | fail err => (v, Err err)
  | ok d => (VInt d, Nil)
  end.

Definition parseBoolValue (v : Value) (str : string) : Value * outcome :=
  match strconv_ParseBool str with
  | fail err => (v, Err err)
  | ok val => (VBool val, Nil)
  end.

Definition parseIntValue (w : width) (v : Value) (str : string)
    : Value * outcome :=
  match strconv_ParseInt str with
  | fail err => (v, Err err)
  | ok val => (VInt (wrap_int w val), Nil)
  end.

Definition parseUintValue (w : width) (v : Value) (str : string)
    : Value * outcome :=
  match strconv_ParseUint str with
  | fail err => (v, Err err)
  | ok val => (VUint (wrap_uint w val), Nil)
  end.

Definition parseFloatValue (w : width) (v : Value) (str : string)
    : Value * outcome :=
  match strconv_ParseFloat str with
  | fail err => (v, Err err)
  | ok val => (VFloat (match w with W32 => float32_round val | _ => val end), Nil)
  end.

Definition parseBytesValue (v : Value) (str : string) : Value * outcome :=
  match base64_DecodeString str with
  | fail err => (v, Err err)
  | ok val => (VSlice (VUint <$> val), Nil)
  end.

(** [value.Field(i)] of a struct variable *)
Definition Value_Field (vs : list Value) (i : nat) (t : Type_) : Value :=
  default (zero t) (vs !! i).

Definition struct_values (v : Value) : list Value :=
  match v with VStruct vs => vs | _ => [] end.

(** The body of [parseStruct] around its loop over the fields. *)
Definition parseStruct_body
    (loop : list Value -> list string -> list Value * outcome)
    (numField : nat) (v : Value) (token : string) : Value * outcome :=
  match slice_expr token 1 (len token - 1) with
  | None => (v, Panic "slice bounds out of range")
  | Some inner =>
      let tokens := strings_Split inner "," in
      if negb (length tokens =? numField)%nat then
        (v, Err (errorString
           ("envconfig: struct token has " +:+ fmt_d (Z.of_nat (length tokens))
            +:+ " fields but struct has " +:+ fmt_d (Z.of_nat numField))))
      else
        let '(vs, out) := loop (struct_values v) tokens in
        (VStruct vs, out)
  end.

(** [Field.parseValue] and the loop of [Field.parseStruct], from field [i]
    on.  The variable [v] is written in place: the result is its new
    content, also when an error is returned.  Neither method reads its
    receiver, which is left out. *)
Fixpoint parseValue (t : Type_) (v : Value) (str : string) {struct t}
    : Value * outcome :=
  match t with
  | mkType _ _ s =>
      let v := match s with SMap _ _ => VMap [] | _ => v end in
      if isUnmarshaler t then parseWithUnmarshaler t v str
      else if isDurationField t then parseDuration v str
      else
        match s with
        | SBool => parseBoolValue v str
        | SInt w => parseIntValue w v str
        | SUint w => parseUintValue w v str
        | SFloat w => parseFloatValue w v str
        | SPtr e =>
            let '(x, out) := parseValue e (zero e) str in (VPtr x, out)
        | SString => (VString str, Nil)
        | SStruct fs =>
            parseStruct_body (parseStruct_fields fs 0) (NumField fs) v str
        | SSlice _ | SMap _ _ | SOther _ =>
            (v, Err (errorString
               ("envconfig: kind " +:+ Kind_String (Type_Kind t)
                +:+ " not supported")))
        end
  end
with parseStruct_fields (fs : Fields) (i : nat) (vs : list Value)
    (tokens : list string) {struct fs} : list Value * outcome :=
  match fs with
  | FNil => (vs, Nil)
  | FCons _ _ _ ft rest =>
      match tokens !! i with
      | None => (vs, Panic "index out of range")
      | Some t =>
          let '(x, out) := parseValue ft (Value_Field vs i ft) t in
          let vs := <[i := x]> vs in
          match out with
          | Nil => parseStruct_fields rest (S i) vs tokens
          | _ => (vs, out)
          end
      end
  end.

(** [Field.parseStruct], on a variable of the struct type with fields
    [fs]. *)
Definition Field_parseStruct (fs : Fields) (value : Value) (token : string)
    : Value * outcome :=
  parseStruct_body (parseStruct_fields fs 0) (NumField fs) value token.

(** The loop of [setSliceField] over the tokens: the slice grows by one
    converted element per token. *)
Fixpoint setSlice_loop (elType : Type_) (tokens : list string)
    (slice : list Value) : list Value * outcome :=
  match tokens with
  | [] => (slice, Nil)
  | token :: tokens' =>
      let '(el, out) := parseValue elType (zero elType) token in
      match out with
      | Nil => setSlice_loop elType tokens' (slice ++ [el])
      | _ => (slice, out)
      end
  end.

(** [Field.setSliceField], on a variable whose type is a slice of
    [elType].  [reflect.MakeSlice(value.Type(), value.Len(), value.Cap())]
    holds [value.Len()] zero elements. *)
Definition Field_setSliceField (elType : Type_) (value : Value) (str : string)
    : Value * outcome :=
  let '(tokens, tnz_err) := sliceTokenizer str in
  let slice := replicate (Value_Len value) (zero elType) in
  match setSlice_loop elType tokens slice with
  | (slice, Nil) =>
      (VSlice slice, match tnz_err with None => Nil | Some err => Err err end)
  | (_, out) => (value, out)
  end.

(** [os.Getenv(key) != ""] *)
Definition is_set (key : string) : bool :=
  negb (String.eqb (os_Getenv key) "").

(** The error of [readValue] for the keys it has tried. *)
Definition keys_not_found (keys : list string) : error :=
  errorString ("envconfig: keys " +:+ strings_Join keys ", " +:+ " not found").

(** The loop of [readValue]: [str] ends as the value of the first key that
    is set to a non-empty string, or empty. *)
Fixpoint readValue_loop (keys : list string) (str : string) : string :=
  match keys with
  | [] => str
  | key :: keys' =>
      let str := os_Getenv key in
      if negb (String.eqb str "") then str else readValue_loop keys' str
  end.

(** [Field.readValue] *)
Definition Field_readValue (fld : Field) : result string :=
  let keys := Field_Keys fld in
  let str := readValue_loop keys "" in
  if negb (String.eqb str "") then ok str
  else if negb (String.eqb (fld_defaultVal fld) "") then ok (fld_defaultVal fld)
  else if fld_optional fld then ok ""
  else fail (keys_not_found keys).

(** [Field.setField], on the content [v] of the variable [value]: the
    descriptor, the content and the error after the call. *)
Definition Field_setField (fld : Field) (t : Type_) (v : Value)
    : Field * Value * outcome :=
  match Field_readValue fld with
  | fail err => (fld, v, Err err)
  | ok str =>
      if (len str =? 0) && fld_optional fld then (fld, v, Nil)
      else
        let fld := set_strValue fld str in
        let isSliceNotUnmarshaler :=
          bool_decide (Type_Kind t = Slice) && negb (isUnmarshaler t) in
        let '(v, out) :=
          if isSliceNotUnmarshaler && is_byteSliceType t then
            parseBytesValue v str
          else if isSliceNotUnmarshaler then
            match t_shape t with
            | SSlice elType => Field_setSliceField elType v str
            | _ => (v, Panic "reflect: Elem of invalid type")
            end
          else parseValue t v str in
        (fld, v, out)
  end.

(** [Field.setValue]: [setField] on the variable the descriptor refers to,
    inside the configuration object [root]. *)
Definition Field_setValue (fld : Field) (root : Value)
    : Field * Value * outcome :=
  let value := fld_value fld in
  let cur := load root (rv_path value) in
  let '(fld', v, out) := Field_setField fld (rv_type value) cur in
  (fld', store root (rv_path value) v, out).

(** The loop of [ConfInfo.Read], over the descriptors still to be read. *)
Fixpoint ConfInfo_Read (cinfo : ConfInfo) (root : Value)
    : ConfInfo * Value * outcome :=
  match cinfo with
  | [] => ([], root, Nil)
  | fld :: rest =>
      let '(fld', root', out) := Field_setValue fld root in
      match out with
      | Nil =>
          let '(rest', root'', out') := ConfInfo_Read rest root' in
          (fld' :: rest', root'', out')
      | _ => (fld' :: rest, root', out)
      end
  end.

End Convert.

(** ** The walk *)

(** [context], without the pointer [config]: the list it points to is
    threaded through the walk together with the configuration object. *)
Record context : Type := mkContext {
  ctx_name : fieldName;
  ctx_optional : bool;
  ctx_allowUnexported : bool
}.

Record Options : Type := mkOptions {
  Prefix : string;
  AllOptional : bool;
  AllowUnexported : bool
}.

(** What the walk writes to: the configuration object, where it allocates
    the targets of nil pointers, and the list [*ctx.config]. *)
Record walk : Type := mkWalk {
  w_root : Value;
  w_config : ConfInfo
}.

(** [ConfInfo.append] *)
Definition ConfInfo_append (w : walk) (fld : Field) : walk :=
  mkWalk (w_root w) (w_config w ++ [fld]).

(** [if field.IsNil() { field.Set(reflect.New(field.Type().Elem())) }] *)
Definition alloc_if_nil (w : walk) (field : list step) (elem : Type_) : walk :=
  if IsNil (load (w_root w) field)
  then mkWalk (store (w_root w) field (VPtr (zero elem))) (w_config w)
  else w.

(** [readStruct], from field [i] of the struct variable at path [value] on,
    and the switch at the label [doRead] for a field variable of type
    [t]. *)
Fixpoint readStruct_from (fs : Fields) (i : nat) (value : list step)
    (ctx : context) (w : walk) {struct fs} : walk * outcome :=
  match fs with
  | FNil => (w, Nil)
  | FCons name tagstr exported ftype rest =>
      let field := value ++ [SField i] in
      let tag := parseTag tagstr in
      let canSet := exported in
      if tag_skip tag || negb canSet then
        if negb canSet && negb (ctx_allowUnexported ctx)
        then (w, Err ErrUnexportedField)
        else readStruct_from rest (S i) value ctx w
      else
        let '(w', err) := doRead ftype field name tag ctx w in
        match err with
        | Nil => readStruct_from rest (S i) value ctx w'
        | _ => (w', err)
        end
  end
with doRead (t : Type_) (field : list step) (name : string) (tag : tag)
    (ctx : context) (w : walk) {struct t} : walk * outcome :=
  match t with
  | mkType _ _ s =>
      match s with
      | SPtr e =>
          doRead e (field ++ [SElem]) name tag ctx (alloc_if_nil w field e)
      | SStruct fs =>
          readStruct_from fs 0 field
            (mkContext (fieldName_Append (ctx_name ctx) name)
                       (ctx_optional ctx || tag_optional tag)
                       (ctx_allowUnexported ctx))
            w
      | _ =>
          (ConfInfo_append w
             (mkField (fieldName_Append (ctx_name ctx) name)
                      (mkRValue t field)
                      ""
                      (tag_customName tag)
                      (tag_defaultVal tag)
                      (tag_note tag)
                      (ctx_optional ctx || tag_optional tag)
                      (ctx_allowUnexported ctx)),
           Nil)
      end
  end.

(** [readStruct] on the struct variable at path [value] *)
Definition readStruct (fs : Fields) (value : list step) (ctx : context)
    (w : walk) : walk * outcome :=
  readStruct_from fs 0 value ctx w.

(** The loop [for elem.Kind() == reflect.Ptr] of [ParseWithOptions]
    followed by the test of the kind and the walk. *)
Fixpoint parse_elem (t : Type_) (elem : list step) (ctx : context)
    (w : walk) {struct t} : walk * outcome :=
  match t with
  | mkType _ _ s =>
      match s with
      | SPtr e => parse_elem e (elem ++ [SElem]) ctx (alloc_if_nil w elem e)
      | SStruct fs => readStruct fs elem ctx w
      | _ => (w, Err ErrInvalidValueKind)
      end
  end.

(** [ParseWithOptions], on a [conf] of dynamic type [t].  The [Elem] of a
    nil pointer is the invalid value, whose kind is not [Struct]. *)
Definition ParseWithOptions (t : Type_) (conf : Value) (opts : Options)
    : walk * outcome :=
  let w := mkWalk conf [] in
  match t_shape t with
  | SPtr e =>
      if IsNil conf then (w, Err ErrInvalidValueKind)
      else
        let name : fieldName := [] in
        let name :=
          if negb (String.eqb (Prefix opts) "")
          then fieldName_Append name (Prefix opts) else name in
        parse_elem e [SElem]
          (mkContext name (AllOptional opts) (AllowUnexported opts)) w
  | _ => (w, Err ErrNotAPointer)
  end.

(** [Parse] and [ParseWithPrefix] *)
Definition Parse (t : Type_) (conf : Value) : walk * outcome :=
  ParseWithOptions t conf (mkOptions "" false false).

Definition ParseWithPrefix (t : Type_) (conf : Value) (prefix : string)
    : walk * outcome :=
  ParseWithOptions t conf (mkOptions prefix false false).

(** [InitWithOptions]: the walk, then [Read] on the list it made. *)
Definition InitWithOptions `{GoRuntime} (t : Type_) (conf : Value)
    (opts : Options) : ConfInfo * Value * outcome :=
  match ParseWithOptions t conf opts with
  | (w, Nil) => ConfInfo_Read (w_config w) (w_root w)
  | (w, out) => (w_config w, w_root w, out)
  end.

(** ** The specification's wording of the word-boundary rule

    The specification places an underscore immediately before every
    uppercase letter inside a segment that has a lowercase letter next to
    it, before or after.  [spec_boundary n i] says so of the rune at
    offset [i] of the rune slice [n]; [spec_word_form] is the form of a
    segment under that rule, and [has_boundary] tells whether a segment
    holds such a place. *)
Definition spec_boundary (n : list rune) (i : Z) : bool :=
  (i >? 0) && unicode_IsUpper (rune_at n i) &&
  (unicode_IsLower (rune_at n (i - 1)) ||
   ((i + 1 <? Z.of_nat (length n)) && unicode_IsLower (rune_at n (i + 1)))).

Fixpoint spec_word_form_from (n : list rune) (rest : string) (i : Z)
    : string :=
  match rest with
  | EmptyString => EmptyString
  | String r rest' =>
      (if spec_boundary n i then "_" else "") +:+
      String r (spec_word_form_from n rest' (i + 1))
  end.

Definition spec_word_form (part : string) : string :=
  spec_word_form_from (runes part) part 0.

Definition has_boundary (part : string) : bool :=
  existsb (fun i => spec_boundary (runes part) (Z.of_nat i))
          (seq 0 (String.length part)).

(** A letter of either case, and a segment that holds one. *)
Definition is_letter (r : rune) : bool := unicode_IsUpper r || unicode_IsLower r.

Definition has_letter (part : string) : bool := existsb is_letter (runes part).

(** What the inner loop of [fieldName.Keys] tests before it writes the rune
    [r] at offset [i]. *)
Definition inserts (n : list rune) (i : Z) (r : rune) : bool :=
  (i >? 0) && unicode_IsUpper r && prevOrNextLower n i.

(** [strings.Contains] *)
Fixpoint strings_Contains (s substr : string) : bool :=
  String.prefix substr s ||
  match s with
  | EmptyString => false
  | String _ s' => strings_Contains s' substr
  end.

(** Write-targets that lie apart: the two paths part ways at some step, so
    neither variable contains the other. *)
Fixpoint diverge (p q : list step) : bool :=
  match p, q with
  | a :: p', b :: q' => if decide (a = b) then diverge p' q' else true
  | _, _ => false
  end.

Fixpoint targets_apart (ps : list (list step)) : bool :=
  match ps with
  | [] => true
  | p :: ps' => forallb (diverge p) ps' && targets_apart ps'
  end.

Definition target (fld : Field) : list step := rv_path (fld_value fld).

(** The declared fields that a path passes through, from a variable of type
    [t] on: for each, its tag and whether it is exported. *)
Fixpoint nth_field (fs : Fields) (k : nat)
    : option (string * string * bool * Type_) :=
  match fs, k with
  | FNil, _ => None
  | FCons n tg ex ft _, O => Some (n, tg, ex, ft)
  | FCons _ _ _ _ rest, S k' => nth_field rest k'
  end.

Fixpoint trail (q : list step) (t : Type_) : list (string * bool) :=
  match q with
  | [] => []
  | SElem :: q' =>
      match t_shape t with
      | SPtr e => trail q' e
      | _ => []
      end
  | SField k :: q' =>
      match t_shape t with
      | SStruct fs =>
          match nth_field fs k with
          | Some (_, tg, ex, ft) => (tg, ex) :: trail q' ft
          | None => []
          end
      | _ => []
      end
  end.

(** A field that the walk may register or descend into: it can be set and
    its tag has no skip directive. *)
Definition walked (f : string * bool) : bool :=
  negb (tag_skip (parseTag f.1)) && f.2.

(** What a walk may leave behind, seen from the variable [field] of type
    [t] it started at: the descriptors [new] it appended refer to variables
    inside [field], along fields that are all [walked], no two of them to
    variables that overlap; and it ends without error, or with
    [ErrUnexportedField] when unexported fields are not allowed. *)
Definition inside (field : list step) (t : Type_) (d : Field) : Prop :=
  exists q, target d = field ++ q /\ forallb walked (trail q t) = true.

(** The same for the loop over the fields [fs] that starts at index [i] of
    the struct variable [value]. *)
Definition inside_fields (value : list step) (fs : Fields) (i : nat)
    (d : Field) : Prop :=
  exists k q n tg ex ft,
    target d = value ++ SField k :: q /\ (i <= k)%nat /\
    nth_field fs (k - i) = Some (n, tg, ex, ft) /\
    walked (tg, ex) = true /\ forallb walked (trail q ft) = true.

Definition walk_outcome (ctx : context) (out : outcome) : Prop :=
  out = Nil \/ (out = Err ErrUnexportedField /\ ctx_allowUnexported ctx = false).

Definition walk_result (ok : Field -> Prop) (ctx : context) (w : walk)
    (r : walk * outcome) : Prop :=
  exists new,
    w_config r.1 = w_config w ++ new /\ Forall ok new /\
    targets_apart (target <$> new) = true /\ walk_outcome ctx r.2.

(** ** A runtime to run examples with *)

Definition quote_rune : rune := ascii_of_N 34.

Definition syntax_error (fn str : string) : error :=
  errorString (fn +:+ ": parsing " +:+ String quote_rune str
               +:+ String quote_rune ": invalid syntax").

Definition range_error (fn str : string) : error :=
  errorString (fn +:+ ": parsing " +:+ String quote_rune str
               +:+ String quote_rune ": value out of range").

Definition sample_ParseBool (str : string) : result bool :=
  if bool_decide (str ∈ ["1"; "t"; "T"; "TRUE"; "true"; "True"]) then ok true
  else if bool_decide (str ∈ ["0"; "f"; "F"; "FALSE"; "false"; "False"])
  then ok false
  else fail (syntax_error "strconv.ParseBool" str).

Fixpoint decimal (s : string) (acc : Z) : option Z :=
  match s with
  | EmptyString => Some acc
  | String c s' =>
      let d := rune_code c - 48 in
      if (0 <=? d) && (d <=? 9) then decimal s' (10 * acc + d) else None
  end.

Definition sample_ParseUint (str : string) : result Z :=
  match str with
  | EmptyString => fail (syntax_error "strconv.ParseUint" str)
  | _ =>
      match decimal str 0 with
      | None => fail (syntax_error "strconv.ParseUint" str)
      | Some n =>
          if n <? 2 ^ 64 then ok n
          else fail (range_error "strconv.ParseUint" str)
      end
  end.

Definition sample_ParseInt (str : string) : result Z :=
  let '(neg, body) :=
    match str with
    | String "-" s' => (true, s')
    | String "+" s' => (false, s')
    | _ => (false, str)
    end in
  match body with
  | EmptyString => fail (syntax_error "strconv.ParseInt" str)
  | _ =>
      match decimal body 0 with
      | None => fail (syntax_error "strconv.ParseInt" str)
      | Some n =>
          let n := if neg then - n else n in
          if (- 2 ^ 63 <=? n) && (n <? 2 ^ 63) then ok n
          else fail (range_error "strconv.ParseInt" str)
      end
  end.

(** Modelled from the spec: the slice tokenizer, whose source file is
    missing.  It splits on commas, but a group between parentheses is one
    token; it never reports an error for a string in memory. *)
Fixpoint sample_scan (s : string) (inGroup : bool) (cur : string)
    : list string :=
  match s with
  | EmptyString => [cur]
  | String r s' =>
      if Ascii.eqb r "," && negb inGroup then cur :: sample_scan s' inGroup ""
      else
        let inGroup :=
          if Ascii.eqb r "(" then true
          else if Ascii.eqb r ")" then false else inGroup in
        sample_scan s' inGroup (cur +:+ String r "")
  end.

Definition sample_tokenizer (str : string) : list string * option error :=
  (sample_scan str false "", None).

(** Booleans and decimal integers are read as [strconv] reads them; this
    runtime accepts no floating-point, duration or base64 text and knows no
    user type. *)
Definition sample_runtime (environ : gmap string string) : GoRuntime := {|
  os_Getenv := getenv environ;
  strconv_ParseBool := sample_ParseBool;
  strconv_ParseInt := sample_ParseInt;
  strconv_ParseUint := sample_ParseUint;
  strconv_ParseFloat str := fail (syntax_error "strconv.ParseFloat" str);
  float32_round bits := bits;
  time_ParseDuration str := fail (errorString "time: invalid duration");
  base64_DecodeString str := fail (errorString "illegal base64 data");
  Unmarshal t v str := (v, Nil);
  sliceTokenizer := sample_tokenizer
|}.

(** The predeclared types [string], [int] and [bool], and the struct of the
    package's example: [Protocol] with default [https], [RemoteHost], and
    [Port] with default [443]. *)
Definition string_t : Type_ := mkType "string" false SString.
Definition int_t : Type_ := mkType "int" false (SInt W0).
Definition bool_t : Type_ := mkType "bool" false SBool.

Definition example_fields : Fields :=
  FCons "Protocol" "default=https" true string_t
  (FCons "RemoteHost" "" true string_t
  (FCons "Port" "default=443" true int_t FNil)).

Definition example_t : Type_ :=
  mkType "" false (SPtr (mkType "Config" false (SStruct example_fields))).

Definition example_conf : Value :=
  VPtr (VStruct [VString ""; VString ""; VInt 0]).

Definition example_environ : gmap string string :=
  <["REMOTE_HOST" := "localhost"]> (<["PORT" := "80"]> ∅).

(** The descriptors of the three fields, as the walk makes them, and an
    optional field [Proxy] of the same struct. *)
Definition protocol_field : Field :=
  mkField ["Protocol"] (mkRValue string_t [SElem; SField 0%nat])
          "" "" "https" "" false false.

Definition remoteHost_field : Field :=
  mkField ["RemoteHost"] (mkRValue string_t [SElem; SField 1%nat])
          "" "" "" "" false false.

Definition port_field : Field :=
  mkField ["Port"] (mkRValue int_t [SElem; SField 2%nat])
          "" "" "443" "" false false.

Definition proxy_field : Field :=
  mkField ["Proxy"] (mkRValue string_t [SElem; SField 1%nat])
          "" "" "" "" true false.

(** A struct of two integers, as an element of a slice. *)
Definition point_t : Type_ :=
  mkType "Point" false (SStruct (FCons "X" "" true int_t
                                (FCons "Y" "" true int_t FNil))).

(** A slice of such structs as a field [Points], read from the variable
    [POINTS]. *)
Definition points_t : Type_ := mkType "" false (SSlice point_t).

Definition points_field : Field :=
  mkField ["Points"] (mkRValue points_t [SElem; SField 0%nat])
          "" "" "" "" false false.

(** A struct with a skipped struct field, an unexported field, and two
    plain fields around them. *)
Definition inner_t : Type_ :=
  mkType "Inner" false (SStruct (FCons "Key" "" true string_t FNil)).

Definition guarded_rest : Fields :=
  FCons "hidden" "" false int_t (FCons "Port" "optional" true int_t FNil).

Definition guarded_fields : Fields :=
  FCons "Name" "" true string_t (FCons "Secret" "-" true inner_t guarded_rest).

Definition guarded_t : Type_ :=
  mkType "" false (SPtr (mkType "Guarded" false (SStruct guarded_fields))).

Definition guarded_conf : Value :=
  VPtr (VStruct [VString ""; VStruct [VString ""]; VInt 0; VInt 0]).

(** ** The other entry points *)

(** [Init] and [InitWithPrefix] *)
Definition Init `{GoRuntime} (t : Type_) (conf : Value)
    : ConfInfo * Value * outcome :=
  InitWithOptions t conf (mkOptions "" false false).

Definition InitWithPrefix `{GoRuntime} (t : Type_) (conf : Value)
    (prefix : string) : ConfInfo * Value * outcome :=
  InitWithOptions t conf (mkOptions prefix false false).

(** ** The helpers of the package [docs] *)

(** [noteOptional] *)
Definition noteOptional (fld : Field) : string :=
  let note := Field_Note fld in
  if negb (Field_Optional fld) then note
  else if String.eqb note "" then "Optional."
  else "Optional. " +:+ note.

(** [keysUpper]: [keys[:len(keys)/2]] *)
Definition keysUpper (fld : Field) : list string :=
  let keys := Field_Keys fld in
  take (length keys / 2) keys.

(** ** The two joined forms of a path *)

(** What the inner loop of [fieldName.Keys] adds to [buf] for the runes
    [rest] of a part, from offset [i] on, and for a whole part. *)
Fixpoint word_form_from (n : list rune) (rest : string) (i : Z) : string :=
  match rest with
  | EmptyString => EmptyString
  | String r rest' =>
      (if inserts n i r then "_" else "") +:+
      String r (word_form_from n rest' (i + 1))
  end.

Definition word_form (part : string) : string :=
  word_form_from (runes part) part 0.

(** [underscored a b]: the string [a] is [b] with an underscore put in
    front of some of its uppercase letters. *)
Inductive underscored : string -> string -> Prop :=
  | underscored_nil : underscored "" ""
  | underscored_same (c : rune) (a b : string) :
      underscored a b -> underscored (String c a) (String c b)
  | underscored_ins (c : rune) (a b : string) :
      unicode_IsUpper c = true -> underscored a b ->
      underscored (String "_" (String c a)) (String c b).

(** A key that is its own uppercase form. *)
Definition is_upper_key (k : string) : bool := String.eqb (strings_ToUpper k) k.

(** ** What the walk writes into a descriptor *)

(** A descriptor as the walk makes it below the path [prefix], in a context
    with the flags [optional] and [allow]: no string recorded yet, the
    allowance copied, optional when the context is, a name that extends
    [prefix], and a variable that is neither a pointer nor a struct. *)
Definition made_under (prefix : fieldName) (optional allow : bool)
    (d : Field) : Prop :=
  fld_strValue d = "" /\
  fld_allowUnexported d = allow /\
  (optional = true -> fld_optional d = true) /\
  (exists rest, fld_name d = prefix ++ rest) /\
  Type_Kind (rv_type (fld_value d)) <> Ptr /\
  Type_Kind (rv_type (fld_value d)) <> Struct.

(** The same for the fields of a struct walked in the context [ctx]: the
    name goes on with the name of one of the fields. *)
Definition made_in (ctx : context) (d : Field) : Prop :=
  exists n, made_under (ctx_name ctx ++ [n]) (ctx_optional ctx)
                       (ctx_allowUnexported ctx) d.

(** A walk that only appends descriptors, all of them [ok]. *)
Definition walk_adds (ok : Field -> Prop) (w : walk) (r : walk * outcome)
    : Prop :=
  exists new, w_config r.1 = w_config w ++ new /\ Forall ok new.

(** The context that [ParseWithOptions] starts the walk in. *)
Definition start_context (opts : Options) : context :=
  mkContext (if negb (String.eqb (Prefix opts) "") then [Prefix opts] else [])
            (AllOptional opts) (AllowUnexported opts).

(** The ways a key can begin when the first segment of its path is [p]:
    with [p] or with [p] in its word-boundary form, in upper or in lower
    case, and then the joining underscore. *)
Definition key_prefixes (p : string) : list string :=
  [strings_ToUpper p +:+ "_"; strings_ToLower p +:+ "_";
   strings_ToUpper (word_form p) +:+ "_"; strings_ToLower (word_form p) +:+ "_"].

Definition prefixed_by (p key : string) : bool :=
  existsb (strings_HasPrefix key) (key_prefixes p).

(** ** Counting separators, and structs with several fields *)

(** How often the rune [c] occurs in a string. *)
Fixpoint count_rune (c : rune) (s : string) : nat :=
  match s with
  | EmptyString => 0%nat
  | String r s' => ((if Ascii.eqb r c then 1 else 0) + count_rune c s')%nat
  end.

(** A struct type of two or more fields that is converted by
    [parseStruct], and a list of fields that holds a field of such a
    type. *)
Definition is_wide_struct (t : Type_) : bool :=
  match t_shape t with
  | SStruct fs =>
      (2 <=? NumField fs)%nat && negb (isUnmarshaler t) &&
      negb (isDurationField t)
  | _ => false
  end.

Fixpoint has_wide_struct (fs : Fields) : bool :=
  match fs with
  | FNil => false
  | FCons _ _ _ ft rest => is_wide_struct ft || has_wide_struct rest
  end.

(** The error of [parseStruct] for a token of [parts] pieces. *)
Definition struct_token_mismatch (parts numField : nat) : error :=
  errorString ("envconfig: struct token has " +:+ fmt_d (Z.of_nat parts)
               +:+ " fields but struct has " +:+ fmt_d (Z.of_nat numField)).

(** ** Tokens by the case of [parseTag] they reach *)

(** The tokens that reach the [default:] case of the switch of [parseTag],
    which sets the custom name. *)
Definition is_name_token (v : string) : bool :=
  negb (String.eqb v "-") && negb (String.eqb v "optional") &&
  negb (strings_HasPrefix v "default=") && negb (strings_HasPrefix v "note=").

(** ** Variables that hold a value *)

(** A variable that holds something other than nil, a pointer or a
    struct: a boolean, a number, a string, a slice or a map. *)
Definition holds_value (v : Value) : bool :=
  match v with
  | VNil | VPtr _ | VStruct _ => false
  | _ => true
  end.

(** The object [r'] has every such variable of [r], with its value. *)
Definition keeps (r r' : Value) : Prop :=
  forall q, holds_value (load r q) = true -> load r' q = load r q.

(** ** Text within ASCII *)

(** [r <= unicode.MaxASCII], and the strings and paths that hold such
    bytes only.  On them a rune is a byte, the offset of [range] is the
    index in the rune slice, and the casing functions above are Go's. *)
Definition is_ASCII (r : rune) : bool := rune_code r <=? 127.

Definition ascii_text (s : string) : bool := forallb is_ASCII (runes s).

Definition ascii_name (name : fieldName) : bool := forallb ascii_text name.

(** ** What the walk meets in a type *)

(** Whether the walk comes to a field that cannot be set, going through
    the fields in the order of [readStruct]: a field that cannot be set
    is met where it stands, whatever its tag; a field with the skip
    directive is passed over; any other field is entered through its
    pointers and, when it is a struct, searched before the fields after
    it. *)
Fixpoint meets_unexported (t : Type_) : bool :=
  match t with
  | mkType _ _ s =>
      match s with
      | SPtr e => meets_unexported e
      | SStruct fs => meets_unexported_fields fs
      | _ => false
      end
  end
with meets_unexported_fields (fs : Fields) : bool :=
  match fs with
  | FNil => false
  | FCons _ tagstr exported ftype rest =>
      if negb exported then true
      else if tag_skip (parseTag tagstr) then meets_unexported_fields rest
      else meets_unexported ftype || meets_unexported_fields rest
  end.

(** Whether the pointers of a type lead to a struct: what the loop
    [for elem.Kind() == reflect.Ptr] of [ParseWithOptions] ends on. *)
Fixpoint ends_in_struct (t : Type_) : bool :=
  match t with
  | mkType _ _ s =>
      match s with
      | SPtr e => ends_in_struct e
      | SStruct _ => true
      | _ => false
      end
  end.

(** ** Two more objects to run examples with *)

(** A struct [Outer] whose first field is a struct [Inner] with one
    unexported field: [Outer{In Inner{hidden int}; B string}]. *)
Definition hidden_inner_t : Type_ :=
  mkType "Inner" false (SStruct (FCons "hidden" "" false int_t FNil)).

Definition outer_fields : Fields :=
  FCons "In" "" true hidden_inner_t (FCons "B" "" true string_t FNil).

Definition outer_t : Type_ :=
  mkType "" false (SPtr (mkType "Outer" false (SStruct outer_fields))).

Definition outer_conf : Value := VPtr (VStruct [VStruct [VInt 0]; VString ""]).

(** A struct [AB] of two pointers to [int] and a string, and an object of
    it whose two pointers hold the address of one variable [x]:
    [AB{&x, &x, s}].  A handle is the path to a variable, so the handles
    that the walk makes for [A] and for [B], which in Go refer to the one
    variable [x], are one path; the variable stands below the first
    pointer. *)
Definition shared_fields : Fields :=
  FCons "A" "" true (mkType "" false (SPtr int_t))
  (FCons "B" "" true (mkType "" false (SPtr int_t))
  (FCons "C" "" true string_t FNil)).







(* ================================================================= *)
(** * Properties *)

(** ** Strings *)

Lemma append_nil_l (s : string) : "" +:+ s = s.
Proof. reflexivity. Qed.

Lemma append_cons (c : rune) (s t : string) :
  String c s +:+ t = String c (s +:+ t).
Proof. reflexivity. Qed.

Ltac string_simpl := simpl; rewrite ?append_cons, ?append_nil_l.

Lemma append_nil_r (s : string) : s +:+ "" = s.
Proof. induction s as [|c s IH]; string_simpl; [done | by rewrite IH]. Qed.

Lemma append_assoc (s1 s2 s3 : string) :
  (s1 +:+ s2) +:+ s3 = s1 +:+ (s2 +:+ s3).
Proof. induction s1 as [|c s1 IH]; string_simpl; [done | by rewrite IH]. Qed.

Lemma length_append (s1 s2 : string) :
  String.length (s1 +:+ s2) = (String.length s1 + String.length s2)%nat.
Proof.
  induction s1 as [|c s1 IH]; string_simpl; [done | simpl; by rewrite IH].
Qed.

Lemma runes_append (s1 s2 : string) : runes (s1 +:+ s2) = runes s1 ++ runes s2.
Proof.
  unfold runes.
  induction s1 as [|c s1 IH]; string_simpl; [done | simpl; by rewrite <- IH].
Qed.

Lemma length_runes (s : string) : length (runes s) = String.length s.
Proof. induction s as [|c s IH]; simpl; [done | by rewrite <- IH]. Qed.

Lemma rune_at_middle (pre post : string) (r : rune) :
  rune_at (runes (pre +:+ String r post)) (Z.of_nat (String.length pre)) = r.
Proof.
  unfold rune_at. rewrite Nat2Z.id, runes_append.
  rewrite app_nth2 by (rewrite length_runes; lia).
  rewrite length_runes, Nat.sub_diag. reflexivity.
Qed.

(** ** The two buffers of [fieldName.Keys] *)

Lemma write_part_buf2 (n : list rune) (rest : string) (i : Z) (b1 b2 : Buffer) :
  (write_part n rest i (b1, b2)).2 = b2 +:+ rest.
Proof.
  revert i b1 b2. induction rest as [|r rest IH]; intros i b1 b2; simpl.
  - by rewrite append_nil_r.
  - rewrite IH. unfold WriteRune. by rewrite append_assoc.
Qed.

Lemma write_part_plain (n : list rune) (rest : string) (i : Z) (b1 b2 : Buffer) :
  (forall pre r post, rest = pre +:+ String r post ->
     inserts n (i + Z.of_nat (String.length pre)) r = false) ->
  write_part n rest i (b1, b2) = (b1 +:+ rest, b2 +:+ rest).
Proof.
  revert i b1 b2. induction rest as [|r rest IH]; intros i b1 b2 Hno; simpl.
  - by rewrite !append_nil_r.
  - pose proof (Hno "" r rest eq_refl) as H0. simpl in H0.
    rewrite Z.add_0_r in H0. unfold inserts in H0. rewrite H0.
    rewrite IH.
    + unfold WriteRune. by rewrite !append_assoc.
    + intros pre r' post ->.
      specialize (Hno (String r pre) r' post eq_refl).
      simpl String.length in Hno.
      replace (i + 1 + Z.of_nat (String.length pre))
        with (i + Z.of_nat (S (String.length pre))) by lia.
      exact Hno.
Qed.

(** Whenever the code inserts an underscore, the place is a boundary in the
    specification's sense. *)
Lemma inserts_spec_boundary (n : list rune) (i : Z) :
  inserts n i (rune_at n i) = true -> spec_boundary n i = true.
Proof.
  unfold inserts, prevOrNextLower, spec_boundary.
  destruct (i >? 0), (unicode_IsUpper (rune_at n i)),
    (i + 1 <? Z.of_nat (length n)), (i - 1 >? 0),
    (unicode_IsLower (rune_at n (i + 1))),
    (unicode_IsLower (rune_at n (i - 1))); simpl; congruence.
Qed.

Lemma has_boundary_false (pre post : string) (r : rune) :
  has_boundary (pre +:+ String r post) = false ->
  spec_boundary (runes (pre +:+ String r post))
                (Z.of_nat (String.length pre)) = false.
Proof.
  unfold has_boundary. intros Hb.
  destruct (spec_boundary _ _) eqn:E; [|done].
  rewrite <- Hb. symmetry. apply existsb_exists.
  exists (String.length pre). split; [|done].
  apply in_seq. rewrite length_append. simpl. lia.
Qed.

Lemma single_part_plain (part : string) :
  has_boundary part = false ->
  write_parts [part] 0 ("", "") = (part, part).
Proof.
  intros Hb. simpl. apply write_part_plain.
  intros pre r post ->. simpl.
  destruct (inserts _ _ r) eqn:E; [|done].
  pose proof (has_boundary_false _ _ _ Hb) as Hs.
  rewrite <- (rune_at_middle pre post r) in E at 2.
  apply inserts_spec_boundary in E. congruence.
Qed.

(** ** Sorting *)

Lemma sort_Strings_sorted (l : list string) : Sorted String.le (sort_Strings l).
Proof. apply (Sorted_merge_sort String.le). Qed.

Lemma sort_Strings_perm (l : list string) : sort_Strings l ≡ₚ l.
Proof. apply merge_sort_Permutation. Qed.

Lemma sort_Strings_unique (l l' : list string) :
  Sorted String.le l' -> l' ≡ₚ l -> sort_Strings l = l'.
Proof.
  intros Hs Hp. apply (Sorted_unique String.le).
  - apply sort_Strings_sorted.
  - exact Hs.
  - by rewrite sort_Strings_perm, Hp.
Qed.

(** Byte for byte, the uppercase form of a string is not above its
    lowercase form. *)
Lemma upper_le_lower_rune (c : rune) :
  (unicode_ToUpper c ?= unicode_ToLower c)%char <> Gt.
Proof.
  destruct c as [[] [] [] [] [] [] [] []]; vm_compute; discriminate.
Qed.

Lemma upper_le_lower (s : string) :
  String.le (strings_ToUpper s) (strings_ToLower s).
Proof.
  unfold String.le, String.leb, strings_ToUpper, strings_ToLower.
  induction s as [|c s IH]; simpl; [done|].
  pose proof (upper_le_lower_rune c).
  destruct (unicode_ToUpper c ?= unicode_ToLower c)%char; done.
Qed.

Lemma letter_cases (c : rune) :
  if is_letter c then unicode_ToUpper c <> unicode_ToLower c
  else unicode_ToUpper c = unicode_ToLower c.
Proof.
  destruct c as [[] [] [] [] [] [] [] []]; vm_compute; congruence.
Qed.

Lemma upper_lower_letter (s : string) :
  strings_ToUpper s = strings_ToLower s <-> has_letter s = false.
Proof.
  unfold strings_ToUpper, strings_ToLower, has_letter, runes.
  induction s as [|c s IH]; simpl; [done|].
  pose proof (letter_cases c) as Hc.
  destruct (is_letter c); simpl.
  - split; [|done]. intros E. injection E as E _. done.
  - rewrite <- IH, Hc. split; [intros E; by injection E | by intros ->].
Qed.

Lemma keys_of_buffers (b : Buffer) :
  sort_Strings (elements (key_set (b, b))) =
    if has_letter b
    then [strings_ToUpper b; strings_ToLower b]
    else [strings_ToUpper b].
Proof.
  unfold key_set. simpl.
  pose proof (upper_lower_letter b) as Hl.
  set (U := strings_ToUpper b) in *. set (L := strings_ToLower b) in *.
  assert (({[U]} ∪ ({[L]} ∪ ({[U]} ∪ ({[L]} ∪ ∅))) : gset string)
          = {[U]} ∪ {[L]}) as -> by set_solver.
  apply sort_Strings_unique.
  - destruct (has_letter b).
    + repeat constructor. apply upper_le_lower.
    + repeat constructor.
  - destruct (has_letter b).
    + assert (U <> L) as Hne by (intros E; by apply Hl in E).
      rewrite elements_union_singleton by set_solver.
      by rewrite elements_singleton.
    + assert (U = L) as <- by (by apply Hl).
      assert (({[U]} ∪ {[U]} : gset string) = {[U]}) as -> by set_solver.
      by rewrite elements_singleton.
Qed.

Lemma Keys_perm (name : fieldName) :
  fieldName_Keys name ≡ₚ elements (key_set (write_parts name 0 ("", ""))).
Proof. apply sort_Strings_perm. Qed.

Lemma Keys_NoDup (name : fieldName) : NoDup (fieldName_Keys name).
Proof. rewrite Keys_perm. apply NoDup_elements. Qed.

Lemma Keys_at_most_four (name : fieldName) :
  (length (fieldName_Keys name) <= 4)%nat.
Proof.
  rewrite Keys_perm.
  set (bufs := write_parts name 0 ("", "")).
  change 4%nat with
    (length [strings_ToUpper bufs.2; strings_ToLower bufs.2;
             strings_ToUpper bufs.1; strings_ToLower bufs.1]).
  apply submseteq_length, NoDup_submseteq; [apply NoDup_elements|].
  intros k Hk. apply elem_of_elements in Hk. unfold key_set in Hk.
  set_solver.
Qed.

(** ** Key derivation: the worked examples *)

(** C1 (amended).  The four worked paths and [["Name"]] give exactly these
    sorted lists; for the two-segment paths the lowercase spelling with the
    inner underscore, [cassandra_ssl_cert], comes before
    [cassandra_sslcert], as the package's own test expects. *)
Theorem Keys_worked_examples :
  fieldName_Keys ["CassandraSslCert"] =
    ["CASSANDRASSLCERT"; "CASSANDRA_SSL_CERT"; "cassandra_ssl_cert";
     "cassandrasslcert"] /\
  fieldName_Keys ["CassandraSSLCert"] =
    ["CASSANDRASSLCERT"; "CASSANDRA_SSL_CERT"; "cassandra_ssl_cert";
     "cassandrasslcert"] /\
  fieldName_Keys ["Cassandra"; "SslCert"] =
    ["CASSANDRA_SSLCERT"; "CASSANDRA_SSL_CERT"; "cassandra_ssl_cert";
     "cassandra_sslcert"] /\
  fieldName_Keys ["Cassandra"; "SSLCert"] =
    ["CASSANDRA_SSLCERT"; "CASSANDRA_SSL_CERT"; "cassandra_ssl_cert";
     "cassandra_sslcert"] /\
  fieldName_Keys ["Name"] = ["NAME"; "name"].
Proof. repeat split; vm_compute; reflexivity. Qed.

(** C1 as stated fails: for [["Cassandra"; "SslCert"]] the list is not in
    the order the claim gives, with [cassandra_sslcert] third. *)
Lemma Keys_two_segment_order_refuted :
  fieldName_Keys ["Cassandra"; "SslCert"] <>
    ["CASSANDRA_SSLCERT"; "CASSANDRA_SSL_CERT"; "cassandra_sslcert";
     "cassandra_ssl_cert"].
Proof. vm_compute. discriminate. Qed.

(** ** Key derivation: where the underscores go *)

Lemma inserts_guard (n : list rune) (i : Z) (r : rune) :
  inserts n i r =
    (2 <=? i) && (i + 1 <? Z.of_nat (length n)) && unicode_IsUpper r &&
    (unicode_IsLower (rune_at n (i + 1)) || unicode_IsLower (rune_at n (i - 1))).
Proof.
  unfold inserts, prevOrNextLower.
  destruct (Z.gtb_spec i 0), (Z.gtb_spec (i - 1) 0), (Z.leb_spec 2 i);
    try lia;
    destruct (unicode_IsUpper r), (i + 1 <? Z.of_nat (length n));
    reflexivity.
Qed.

(** C3.  The segment [ABc] has the uppercase [B] at offset 1 with the
    lowercase [c] after it, and [PlanB] has the uppercase [B] last with
    the lowercase [n] before it.  The rule of the specification writes
    [A_Bc] and [Plan_B]; the code writes no underscore in either, because
    its guard [i+1 < len(n) && i-1 > 0] leaves out offset 1 and the last
    offset. *)
Theorem word_form_misses_offset_one_and_last :
  (write_parts ["ABc"] 0 ("", "")).1 = "ABc" /\
  spec_word_form "ABc" = "A_Bc" /\
  fieldName_Keys ["ABc"] = ["ABC"; "abc"] /\
  (write_parts ["PlanB"] 0 ("", "")).1 = "PlanB" /\
  spec_word_form "PlanB" = "Plan_B" /\
  fieldName_Keys ["PlanB"] = ["PLANB"; "planb"].
Proof. repeat split; vm_compute; reflexivity. Qed.

(** ** Key derivation: sorted, distinct, counted *)

(** C8 (amended).  The keys of any path are pairwise distinct, sorted in
    ascending byte order, and at most four.  A single segment of ASCII
    text without a casing boundary gives its uppercase and its lowercase
    form, two keys in this order, when it holds a letter, and one key when
    it holds none.  (The count is stated for ASCII text, where the casing
    of the embedding is Go's; the first three parts use nothing about
    casing.) *)
Theorem Keys_sorted_distinct_counted (name : fieldName) :
  NoDup (fieldName_Keys name) /\
  Sorted String.le (fieldName_Keys name) /\
  (length (fieldName_Keys name) <= 4)%nat /\
  forall part, name = [part] -> ascii_text part = true ->
    has_boundary part = false ->
    fieldName_Keys name =
      if has_letter part
      then [strings_ToUpper part; strings_ToLower part]
      else [strings_ToUpper part].
Proof.
  split; [apply Keys_NoDup|].
  split; [apply sort_Strings_sorted|].
  split; [apply Keys_at_most_four|].
  intros part -> _ Hb. unfold fieldName_Keys.
  rewrite (single_part_plain part Hb). apply keys_of_buffers.
Qed.

Lemma Keys_sorted_distinct_counted_witness :
  ascii_text "Name" = true /\ has_boundary "Name" = false /\
  fieldName_Keys ["Name"] = ["NAME"; "name"].
Proof.
  split; [reflexivity|]. split; [reflexivity|].
  destruct (Keys_sorted_distinct_counted ["Name"]) as (_ & _ & _ & H).
  rewrite (H "Name" eq_refl eq_refl eq_refl). reflexivity.
Defined.

(** C8 as stated fails: the segment [_], ASCII text, has no casing
    boundary and gives one key, not two. *)
Lemma Keys_two_keys_refuted :
  ~ (forall part : string, has_boundary part = false ->
       length (fieldName_Keys [part]) = 2%nat).
Proof. intros H. specialize (H "_" eq_refl). vm_compute in H. discriminate. Qed.

(** ** Tags *)

Lemma scan_tag_app (s1 s2 : string) (escape : bool) (tokens : list string) :
  scan_tag (s1 +:+ s2) escape tokens =
    scan_tag s2 (scan_tag s1 escape tokens).1 (scan_tag s1 escape tokens).2.
Proof.
  revert escape tokens.
  induction s1 as [|r s1 IH]; intros escape tokens; string_simpl; [done|].
  simpl. destruct (negb escape && Ascii.eqb r "\"); [apply IH|].
  destruct (negb escape && Ascii.eqb r ","); apply IH.
Qed.

Lemma append_last_snoc (tokens : list string) (cur : string) (r : rune) :
  append_last (tokens ++ [cur]) r = tokens ++ [cur +:+ String r ""].
Proof.
  unfold append_last. rewrite length_app. simpl.
  replace (length tokens + 1 - 1)%nat with (length tokens + 0)%nat by lia.
  by rewrite alter_app_r.
Qed.

Lemma scan_tag_escaped (d rest : string) (tokens : list string) (cur : string) :
  scan_tag (tag_escape d +:+ rest) false (tokens ++ [cur]) =
    scan_tag rest false (tokens ++ [cur +:+ d]).
Proof.
  revert cur. induction d as [|r d IH]; intros cur.
  - by rewrite append_nil_r.
  - simpl tag_escape.
    destruct (Ascii.eqb r "\") eqn:E1; [|destruct (Ascii.eqb r ",") eqn:E2];
      simpl orb; cbv iota; rewrite ?append_cons; simpl scan_tag;
      rewrite ?E1, ?E2; simpl; rewrite append_last_snoc, IH;
      by rewrite append_assoc.
Qed.

Lemma scan_tag_directives (ds : list string) (tokens : list string) :
  ds <> [] ->
  scan_tag (strings_Join (tag_escape <$> ds) ",") false (tokens ++ [""]) =
    (false, tokens ++ ds).
Proof.
  revert tokens. induction ds as [|d ds IH]; intros tokens Hne; [done|].
  destruct ds as [|d2 ds].
  - simpl. rewrite <- (append_nil_r (tag_escape d)).
    by rewrite scan_tag_escaped.
  - change (strings_Join (tag_escape <$> d :: d2 :: ds) ",")
      with (tag_escape d +:+ "," +:+ strings_Join (tag_escape <$> d2 :: ds) ",").
    rewrite scan_tag_escaped. rewrite append_nil_l, append_cons.
    simpl scan_tag at 1. rewrite append_nil_l.
    rewrite IH by done. by rewrite <- app_assoc.
Qed.

Lemma tag_tokens_directives (ds : list string) :
  ds <> [] -> tag_tokens (strings_Join (tag_escape <$> ds) ",") = ds.
Proof.
  intros Hne. unfold tag_tokens.
  pose proof (scan_tag_directives ds [] Hne) as H.
  rewrite !app_nil_l in H. by rewrite H.
Qed.

Lemma tag_escape_app (a b : string) :
  tag_escape (a +:+ b) = tag_escape a +:+ tag_escape b.
Proof.
  induction a as [|r a IH]; string_simpl; [done|]. simpl. rewrite IH.
  by destruct (Ascii.eqb r "\" || Ascii.eqb r ",").
Qed.

Lemma prefix_append (p x : string) : String.prefix p (p +:+ x) = true.
Proof.
  induction p as [|c p IH]; string_simpl; simpl; [by destruct x|].
  by destruct (ascii_dec c c).
Qed.

Lemma substring_all (x : string) : String.substring 0 (String.length x) x = x.
Proof. induction x as [|c x IH]; simpl; [done | by rewrite IH]. Qed.

Lemma TrimPrefix_append (p x : string) : strings_TrimPrefix (p +:+ x) p = x.
Proof.
  unfold strings_TrimPrefix, strings_HasPrefix. rewrite prefix_append.
  rewrite length_append.
  replace (String.length p + String.length x - String.length p)%nat
    with (String.length x) by lia.
  induction p as [|c p IH]; string_simpl; simpl; [apply substring_all | done].
Qed.

Lemma classify_default (t : tag) (x : string) :
  classify t ("default=" +:+ x) =
    mkTag (tag_customName t) (tag_optional t) (tag_skip t) x (tag_note t).
Proof.
  unfold classify. rewrite TrimPrefix_append.
  unfold strings_HasPrefix. rewrite prefix_append.
  rewrite !append_cons, append_nil_l. reflexivity.
Qed.

Lemma classify_note (t : tag) (x : string) :
  classify t ("note=" +:+ x) =
    mkTag (tag_customName t) (tag_optional t) (tag_skip t) (tag_defaultVal t) x.
Proof.
  unfold classify. rewrite TrimPrefix_append.
  unfold strings_HasPrefix. rewrite prefix_append.
  rewrite !append_cons, append_nil_l. reflexivity.
Qed.

Lemma classify_customName (t : tag) (v : string) :
  v <> "-" -> v <> "optional" ->
  strings_HasPrefix v "default=" = false ->
  strings_HasPrefix v "note=" = false ->
  classify t v =
    mkTag v (tag_optional t) (tag_skip t) (tag_defaultVal t) (tag_note t).
Proof.
  intros H1 H2 H3 H4. unfold classify.
  apply String.eqb_neq in H1, H2. by rewrite H1, H2, H3, H4.
Qed.

Lemma tag_tokens_one (v : string) : tag_tokens (tag_escape v) = [v].
Proof. apply (tag_tokens_directives [v]). done. Qed.

(** C9.  The tag is cut into directives at the commas that no backslash
    escapes; a backslash makes the next character, a comma too, part of the
    directive and is itself dropped, wherever in the tag it stands.  So any
    list of directives, whatever commas and backslashes they hold, is read
    back from the tag that joins their escaped forms, and a default or a
    note can be any text.  Each directive then sets one field: [-] the skip
    flag, [optional] the optional flag, [default=x] the default, [note=x]
    the note, and any other token the custom name. *)
Theorem parseTag_directives :
  (forall s, parseTag s = foldl classify tag_zero (tag_tokens s)) /\
  (forall pre rest,
     (scan_tag pre false [""]).1 = false ->
     scan_tag (pre +:+ "," +:+ rest) false [""] =
       scan_tag rest false ((scan_tag pre false [""]).2 ++ [""])) /\
  (forall pre rest,
     (scan_tag pre false [""]).1 = false ->
     scan_tag (pre +:+ "\," +:+ rest) false [""] =
       scan_tag rest false (append_last (scan_tag pre false [""]).2 ",")) /\
  (forall ds, ds <> [] ->
     tag_tokens (strings_Join (tag_escape <$> ds) ",") = ds) /\
  (forall x, tag_defaultVal (parseTag ("default=" +:+ tag_escape x)) = x) /\
  (forall x, tag_note (parseTag ("note=" +:+ tag_escape x)) = x) /\
  (forall t,
     classify t "-" =
       mkTag (tag_customName t) (tag_optional t) true (tag_defaultVal t)
             (tag_note t) /\
     classify t "optional" =
       mkTag (tag_customName t) true (tag_skip t) (tag_defaultVal t)
             (tag_note t) /\
     (forall x, classify t ("default=" +:+ x) =
        mkTag (tag_customName t) (tag_optional t) (tag_skip t) x (tag_note t)) /\
     (forall x, classify t ("note=" +:+ x) =
        mkTag (tag_customName t) (tag_optional t) (tag_skip t)
              (tag_defaultVal t) x) /\
     (forall v, v <> "-" -> v <> "optional" ->
        strings_HasPrefix v "default=" = false ->
        strings_HasPrefix v "note=" = false ->
        classify t v =
          mkTag v (tag_optional t) (tag_skip t) (tag_defaultVal t)
                (tag_note t))).
Proof.
  split; [done|].
  split.
  { intros pre rest He. rewrite scan_tag_app, He.
    rewrite append_cons, append_nil_l. reflexivity. }
  split.
  { intros pre rest He. rewrite scan_tag_app, He.
    rewrite !append_cons, append_nil_l. reflexivity. }
  split; [apply tag_tokens_directives|].
  split.
  { intros x. unfold parseTag.
    change "default=" with (tag_escape "default=").
    rewrite <- tag_escape_app, tag_tokens_one. simpl.
    by rewrite classify_default. }
  split.
  { intros x. unfold parseTag.
    change "note=" with (tag_escape "note=").
    rewrite <- tag_escape_app, tag_tokens_one. simpl.
    by rewrite classify_note. }
  intros t. split; [done|]. split; [done|].
  split; [apply classify_default|]. split; [apply classify_note|].
  apply classify_customName.
Qed.

Lemma parseTag_directives_witness :
  tag_tokens (strings_Join (tag_escape <$> ["default=a,b"; "optional"; "KEY"]) ",")
    = ["default=a,b"; "optional"; "KEY"] /\
  parseTag "default=a\,b,optional,KEY" = mkTag "KEY" true false "a,b" "".
Proof.
  destruct parseTag_directives as (_ & _ & _ & H & _).
  split; [apply H; discriminate | reflexivity].
Defined.

(** ** The configuration object *)

Lemma store_load_id (root : Value) (p : list step) :
  store root p (load root p) = root.
Proof.
  revert root. induction p as [|[i|] p IH]; intros root; simpl; [done| |].
  - destruct root as [| | | | | | |  | |vs]; try done.
    destruct (vs !! i) as [y|] eqn:E; [|done].
    by rewrite IH, list_insert_id.
  - destruct root; try done. by rewrite IH.
Qed.


(** ** Resolution of the string of a field *)

Lemma Join_middle (keys : list string) (key sep : string) :
  key ∈ keys -> exists a b, strings_Join keys sep = a +:+ key +:+ b.
Proof.
  induction keys as [|k keys IH]; intros Hin; [by apply elem_of_nil in Hin|].
  apply elem_of_cons in Hin as [->|Hin].
  - destruct keys as [|k2 keys].
    + exists "", "". simpl. by rewrite append_nil_r.
    + exists "", (sep +:+ strings_Join (k2 :: keys) sep). done.
  - destruct (IH Hin) as (a & b & E). destruct keys as [|k2 keys].
    + by apply elem_of_nil in Hin.
    + exists (k +:+ sep +:+ a), b.
      change (strings_Join (k :: k2 :: keys) sep)
        with (k +:+ sep +:+ strings_Join (k2 :: keys) sep).
      rewrite E. by rewrite !append_assoc.
Qed.

Lemma Contains_unfold (s substr : string) :
  strings_Contains s substr =
    String.prefix substr s ||
    match s with
    | EmptyString => false
    | String _ s' => strings_Contains s' substr
    end.
Proof. by destruct s. Qed.

Lemma Contains_middle (a key b : string) :
  strings_Contains (a +:+ key +:+ b) key = true.
Proof.
  induction a as [|c a IH].
  - by rewrite append_nil_l, Contains_unfold, prefix_append.
  - rewrite append_cons, Contains_unfold, IH. apply orb_true_r.
Qed.

Lemma keys_not_found_names (keys : list string) :
  Forall (fun key => strings_Contains (error_Error (keys_not_found keys)) key = true)
         keys.
Proof.
  apply Forall_forall. intros key Hin.
  destruct (Join_middle keys key ", " Hin) as (a & b & E).
  unfold keys_not_found, error_Error. rewrite E.
  replace ("envconfig: keys " +:+ (a +:+ key +:+ b) +:+ " not found")
    with (("envconfig: keys " +:+ a) +:+ key +:+ (b +:+ " not found"))
    by (by rewrite !append_assoc).
  apply Contains_middle.
Qed.

Lemma eqb_empty_true (s : string) : String.eqb s "" = true -> s = "".
Proof. apply String.eqb_eq. Qed.

Section Resolution.
Context (R : GoRuntime).

Lemma readValue_loop_find (keys : list string) :
  readValue_loop keys "" =
    match find is_set keys with
    | Some key => os_Getenv key
    | None => ""
    end.
Proof.
  induction keys as [|key keys IH]; simpl; [done|].
  unfold is_set at 1. destruct (String.eqb (os_Getenv key) "") eqn:E; simpl.
  - apply eqb_empty_true in E. rewrite E. apply IH.
  - done.
Qed.

Lemma find_is_set_value (keys : list string) (key : string) :
  find is_set keys = Some key -> String.eqb (os_Getenv key) "" = false.
Proof.
  intros Hf. apply find_some in Hf as [_ Hs].
  unfold is_set in Hs. by apply negb_true_iff in Hs.
Qed.

Lemma readValue_find (fld : Field) :
  Field_readValue fld =
    match find is_set (Field_Keys fld) with
    | Some key => ok (os_Getenv key)
    | None =>
        if negb (String.eqb (fld_defaultVal fld) "") then ok (fld_defaultVal fld)
        else if fld_optional fld then ok ""
        else fail (keys_not_found (Field_Keys fld))
    end.
Proof.
  unfold Field_readValue. rewrite readValue_loop_find.
  destruct (find is_set (Field_Keys fld)) as [key|] eqn:E.
  - by rewrite (find_is_set_value _ _ E).
  - done.
Qed.

Lemma setField_fail (fld : Field) (t : Type_) (v : Value) (err : error) :
  Field_readValue fld = fail err -> Field_setField fld t v = (fld, v, Err err).
Proof. intros E. unfold Field_setField. by rewrite E. Qed.

End Resolution.

Lemma find_ext_Forall {A} (f g : A -> bool) (l : list A) :
  Forall (fun x => f x = g x) l -> find f l = find g l.
Proof.
  induction 1 as [|x l Hx _ IH]; simpl; [done|]. by rewrite Hx, IH.
Qed.

Lemma readValue_agree (R R' : GoRuntime) (fld : Field) :
  Forall (fun key => @os_Getenv R' key = @os_Getenv R key) (Field_Keys fld) ->
  @Field_readValue R' fld = @Field_readValue R fld.
Proof.
  intros Hagree. rewrite !readValue_find.
  assert (find (@is_set R') (Field_Keys fld) = find (@is_set R) (Field_Keys fld))
    as ->.
  { apply find_ext_Forall. eapply Forall_impl; [exact Hagree|].
    intros key E. unfold is_set. by rewrite E. }
  destruct (find is_set (Field_Keys fld)) as [key|] eqn:E; [|done].
  apply find_some in E as [Hin _].
  rewrite Forall_forall in Hagree. f_equal. apply Hagree.
  by apply list_elem_of_In.
Qed.

(** C2.  The keys of a descriptor are its custom name alone when it has
    one, and the derived keys of its path otherwise.  The string of the
    field is the value of the first of these keys, in their order, that the
    environment sets to a non-empty string; without such a key it is the
    default when that is not empty; without one, it is empty for an
    optional field, and for any other field the call fails with the error
    that names every key tried, and the field is not populated.  No other
    variable of the environment has a say. *)
Theorem readValue_resolution (R : GoRuntime) (fld : Field) :
  let keys :=
    if String.eqb (fld_customName fld) ""
    then fieldName_Keys (fld_name fld) else [fld_customName fld] in
  Field_Keys fld = keys /\
  Field_readValue fld =
    match find is_set keys with
    | Some key => ok (os_Getenv key)
    | None =>
        if negb (String.eqb (fld_defaultVal fld) "") then ok (fld_defaultVal fld)
        else if fld_optional fld then ok ""
        else fail (keys_not_found keys)
    end /\
  Forall (fun key =>
            strings_Contains (error_Error (keys_not_found keys)) key = true)
         keys /\
  (forall t v err,
     Field_readValue fld = fail err ->
     Field_setField fld t v = (fld, v, Err err)) /\
  (forall R' : GoRuntime,
     Forall (fun key => @os_Getenv R' key = @os_Getenv R key) keys ->
     @Field_readValue R' fld = @Field_readValue R fld).
Proof.
  intros keys.
  assert (Field_Keys fld = keys) as Hk.
  { unfold Field_Keys, keys. by destruct (String.eqb (fld_customName fld) ""). }
  split; [done|]. split; [rewrite <- Hk; apply readValue_find|].
  split; [apply keys_not_found_names|].
  split; [apply setField_fail|].
  intros R' Hagree. apply readValue_agree. by rewrite Hk.
Qed.

Lemma readValue_resolution_witness :
  @Field_readValue (sample_runtime ∅) remoteHost_field =
    fail (keys_not_found ["REMOTEHOST"; "REMOTE_HOST"; "remote_host"; "remotehost"]) /\
  @Field_setField (sample_runtime ∅) remoteHost_field string_t (VString "") =
    (remoteHost_field, VString "",
     Err (keys_not_found
            ["REMOTEHOST"; "REMOTE_HOST"; "remote_host"; "remotehost"])).
Proof.
  destruct (readValue_resolution (sample_runtime ∅) remoteHost_field)
    as (_ & Hread & _ & Hset & _).
  split; [rewrite Hread; vm_compute; reflexivity|].
  apply Hset. vm_compute. reflexivity.
Defined.

Lemma find_none_Forall {A} (f : A -> bool) (l : list A) :
  Forall (fun x => f x = false) l -> find f l = None.
Proof. induction 1 as [|x l Hx _ IH]; simpl; [done|]. by rewrite Hx. Qed.

(** ** The read phase *)

Section ReadPhase.
Context (R : GoRuntime).






End ReadPhase.




(** C5.  An optional field with no default, none of whose keys is set to a
    non-empty string, is passed over: the call returns no error, it
    converts nothing, whatever the type of the field, the descriptor
    with its recorded string and the content of the variable are as
    before, the configuration object is unchanged, and the read phase goes
    on to the next descriptor. *)
Theorem optional_unset_untouched (R : GoRuntime) (fld : Field) :
  fld_optional fld = true ->
  Forall (fun key => os_Getenv key = "") (Field_Keys fld) ->
  fld_defaultVal fld = "" ->
  (forall t v, Field_setField fld t v = (fld, v, Nil)) /\
  (forall root, Field_setValue fld root = (fld, root, Nil)) /\
  (forall root, Field_Value (Field_setValue fld root).1.1 = Field_Value fld) /\
  (forall rest root,
     ConfInfo_Read (fld :: rest) root =
       let '(rest', root', out) := ConfInfo_Read rest root in
       (fld :: rest', root', out)).
Proof.
  intros Hopt Hunset Hdef.
  assert (forall t v, Field_setField fld t v = (fld, v, Nil)) as Hset.
  { intros t v. unfold Field_setField. rewrite readValue_find.
    rewrite find_none_Forall.
    - rewrite Hdef, Hopt. reflexivity.
    - eapply Forall_impl; [exact Hunset|].
      intros key E. unfold is_set. by rewrite E. }
  assert (forall root, Field_setValue fld root = (fld, root, Nil)) as Hval.
  { intros root. unfold Field_setValue. rewrite Hset.
    by rewrite store_load_id. }
  split; [done|]. split; [done|].
  split; [intros root; by rewrite Hval|].
  intros rest root. simpl. by rewrite Hval.
Qed.

Lemma optional_unset_untouched_witness :
  @Field_setValue (sample_runtime ∅) proxy_field example_conf =
    (proxy_field, example_conf, Nil) /\
  @Field_setField (sample_runtime ∅) proxy_field
     (mkType "" false (SOther OChan)) VNil = (proxy_field, VNil, Nil).
Proof.
  assert (fld_optional proxy_field = true) as Hopt by reflexivity.
  assert (Forall (fun key => @os_Getenv (sample_runtime ∅) key = "")
                 (Field_Keys proxy_field)) as Hunset
    by (vm_compute; repeat constructor).
  assert (fld_defaultVal proxy_field = "") as Hdef by reflexivity.
  destruct (optional_unset_untouched (sample_runtime ∅) proxy_field
              Hopt Hunset Hdef) as (Hset & Hval & _).
  split; [apply Hval | apply Hset].
Defined.




(** ** The walk *)

Lemma readStruct_from_cons (name tagstr : string) (exported : bool)
    (ftype : Type_) (rest : Fields) (i : nat) (value : list step)
    (ctx : context) (w : walk) :
  readStruct_from (FCons name tagstr exported ftype rest) i value ctx w =
    if tag_skip (parseTag tagstr) || negb exported then
      if negb exported && negb (ctx_allowUnexported ctx)
      then (w, Err ErrUnexportedField)
      else readStruct_from rest (S i) value ctx w
    else
      let '(w', err) :=
        doRead ftype (value ++ [SField i]) name (parseTag tagstr) ctx w in
      match err with
      | Nil => readStruct_from rest (S i) value ctx w'
      | _ => (w', err)
      end.
Proof. reflexivity. Qed.

Lemma diverge_fields (value q1 q2 : list step) (i k : nat) :
  i <> k -> diverge (value ++ SField i :: q1) (value ++ SField k :: q2) = true.
Proof.
  intros Hne. induction value as [|a value IH]; simpl.
  - rewrite decide_False by congruence. done.
  - by rewrite decide_True.
Qed.

Lemma diverge_inside (field q1 q2 : list step) :
  diverge q1 q2 = true -> diverge (field ++ q1) (field ++ q2) = true.
Proof.
  intros Hd. induction field as [|a field IH]; simpl; [done|].
  by rewrite decide_True.
Qed.

Lemma targets_apart_join (l1 l2 : list (list step)) :
  targets_apart l1 = true -> targets_apart l2 = true ->
  (forall x y, x ∈ l1 -> y ∈ l2 -> diverge x y = true) ->
  targets_apart (l1 ++ l2) = true.
Proof.
  intros H1 H2 Hx. induction l1 as [|p l1 IH]; simpl; [done|].
  simpl in H1. apply andb_true_iff in H1 as [Hp H1].
  apply andb_true_iff. split.
  - rewrite forallb_app, Hp. simpl. apply forallb_forall.
    intros y Hy. apply Hx; [left | by apply list_elem_of_In].
  - apply IH; [done|]. intros x y Hin. apply Hx. by right.
Qed.

Lemma walk_result_none (ok : Field -> Prop) (ctx : context) (w : walk)
    (out : outcome) :
  walk_outcome ctx out -> walk_result ok ctx w (w, out).
Proof.
  intros Hout. exists []. simpl. by rewrite app_nil_r.
Qed.

Lemma walk_result_alloc (ok : Field -> Prop) (ctx : context) (w : walk)
    (field : list step) (e : Type_) (r : walk * outcome) :
  walk_result ok ctx (alloc_if_nil w field e) r -> walk_result ok ctx w r.
Proof.
  intros (new & Hc & Hrest). exists new. split; [|done].
  rewrite Hc. unfold alloc_if_nil. by destruct (IsNil _).
Qed.

Lemma walk_result_impl (ok ok' : Field -> Prop) (ctx ctx' : context)
    (w : walk) (r : walk * outcome) :
  (forall d, ok d -> ok' d) ->
  ctx_allowUnexported ctx = ctx_allowUnexported ctx' ->
  walk_result ok ctx w r -> walk_result ok' ctx' w r.
Proof.
  intros Hok Hctx (new & Hc & Hall & Hap & Hout). exists new.
  repeat split; try done.
  - eapply Forall_impl; [exact Hall | exact Hok].
  - destruct Hout as [->|[-> Ha]]; [by left | right]. by rewrite <- Hctx.
Qed.

Lemma inside_fields_rest (value : list step) (n tg : string) (ex : bool)
    (ft : Type_) (rest : Fields) (i : nat) (d : Field) :
  inside_fields value rest (S i) d ->
  inside_fields value (FCons n tg ex ft rest) i d.
Proof.
  intros (k & q & n' & tg' & ex' & ft' & Ht & Hk & Hn & Hw & Hq).
  exists k, q, n', tg', ex', ft'. repeat split; try done; [lia|].
  replace (k - i)%nat with (S (k - S i)) by lia. exact Hn.
Qed.

Lemma inside_fields_first (value : list step) (n tg : string) (ex : bool)
    (ft : Type_) (rest : Fields) (i : nat) (d : Field) :
  walked (tg, ex) = true ->
  inside (value ++ [SField i]) ft d ->
  inside_fields value (FCons n tg ex ft rest) i d.
Proof.
  intros Hw (q & Ht & Hq). exists i, q, n, tg, ex, ft.
  repeat split; try done.
  - by rewrite Ht, <- app_assoc.
  - by rewrite Nat.sub_diag.
Qed.

Lemma inside_fields_struct (field : list step) (n : string) (u : bool)
    (fs : Fields) (d : Field) :
  inside_fields field fs 0 d -> inside field (mkType n u (SStruct fs)) d.
Proof.
  intros (k & q & n' & tg & ex & ft & Ht & _ & Hn & Hw & Hq).
  exists (SField k :: q). split; [done|]. simpl.
  rewrite Nat.sub_0_r in Hn. rewrite Hn. simpl. by rewrite Hw, Hq.
Qed.

Lemma inside_ptr (field : list step) (n : string) (u : bool) (e : Type_)
    (d : Field) :
  inside (field ++ [SElem]) e d -> inside field (mkType n u (SPtr e)) d.
Proof.
  intros (q & Ht & Hq). exists (SElem :: q).
  split; [by rewrite Ht, <- app_assoc | done].
Qed.

Lemma walk_result_leaf (field : list step) (t : Type_) (ctx : context)
    (w : walk) (fld : Field) :
  target fld = field ->
  walk_result (inside field t) ctx w (ConfInfo_append w fld, Nil).
Proof.
  intros Ht. exists [fld]. repeat split; try done.
  - repeat constructor. exists []. by rewrite app_nil_r.
  - by left.
Qed.

Lemma walk_result_seq (ok1 ok2 ok : Field -> Prop) (ctx : context)
    (w w1 : walk) (r2 : walk * outcome) :
  walk_result ok1 ctx w (w1, Nil) ->
  walk_result ok2 ctx w1 r2 ->
  (forall d, ok1 d -> ok d) -> (forall d, ok2 d -> ok d) ->
  (forall d1 d2, ok1 d1 -> ok2 d2 -> diverge (target d1) (target d2) = true) ->
  walk_result ok ctx w r2.
Proof.
  intros (new1 & Hc1 & Hall1 & Hap1 & _) (new2 & Hc2 & Hall2 & Hap2 & Hout)
    Hok1 Hok2 Hcross.
  exists (new1 ++ new2). simpl in Hc1. repeat split.
  - by rewrite Hc2, Hc1, app_assoc.
  - apply Forall_app. split; eapply Forall_impl; eauto.
  - rewrite fmap_app. apply targets_apart_join; [done..|].
    intros x y Hx Hy.
    apply list_elem_of_fmap in Hx as (d1 & -> & Hd1).
    apply list_elem_of_fmap in Hy as (d2 & -> & Hd2).
    rewrite Forall_forall in Hall1, Hall2. by apply Hcross; auto.
  - done.
Qed.

Lemma fields_apart (value : list step) (ft : Type_) (rest : Fields) (i : nat)
    (d1 d2 : Field) :
  inside (value ++ [SField i]) ft d1 ->
  inside_fields value rest (S i) d2 ->
  diverge (target d1) (target d2) = true.
Proof.
  intros (q1 & -> & _) (k & q2 & n & tg & ex & ft' & -> & Hk & _).
  rewrite <- app_assoc. simpl. apply diverge_fields. lia.
Qed.

(** Soundness of the walk, by induction on the type that is walked. *)
Lemma walk_sound :
  (forall t field name tag ctx w,
     walk_result (inside field t) ctx w (doRead t field name tag ctx w)) /\
  (forall s n u field name tag ctx w,
     walk_result (inside field (mkType n u s)) ctx w
                 (doRead (mkType n u s) field name tag ctx w)) /\
  (forall fs i value ctx w,
     walk_result (inside_fields value fs i) ctx w
                 (readStruct_from fs i value ctx w)).
Proof.
  apply Type_Shape_Fields_ind.
  - (* a type *) intros n u s IH. apply IH.
  - intros; by apply walk_result_leaf.
  - intros; by apply walk_result_leaf.
  - intros; by apply walk_result_leaf.
  - intros; by apply walk_result_leaf.
  - intros; by apply walk_result_leaf.
  - (* pointer *) intros e IH n u field name tag ctx w. simpl.
    eapply walk_result_alloc, walk_result_impl; [| |apply IH]; [|done].
    intros d. apply inside_ptr.
  - intros; by apply walk_result_leaf.
  - intros; by apply walk_result_leaf.
  - (* struct *) intros fs IH n u field name tag ctx w. simpl.
    eapply walk_result_impl; [| |apply IH]; [|done].
    intros d. apply inside_fields_struct.
  - intros; by apply walk_result_leaf.
  - (* no field left *) intros i value ctx w. apply walk_result_none. by left.
  - (* a field *)
    intros name tagstr exported ft IHt rest IHrest i value ctx w.
    rewrite readStruct_from_cons.
    destruct (tag_skip (parseTag tagstr) || negb exported) eqn:Hskip.
    + destruct (negb exported && negb (ctx_allowUnexported ctx)) eqn:Hun.
      * apply walk_result_none. right. split; [done|].
        apply andb_true_iff in Hun as [_ Hun]. by apply negb_true_iff in Hun.
      * eapply walk_result_impl; [| |apply IHrest]; [|done].
        intros d. apply inside_fields_rest.
    + apply orb_false_iff in Hskip as [Hs Hex].
      apply negb_false_iff in Hex. subst exported.
      pose proof (IHt (value ++ [SField i]) name (parseTag tagstr) ctx w) as H1.
      destruct (doRead ft (value ++ [SField i]) name (parseTag tagstr) ctx w)
        as [w1 err].
      assert (forall d, inside (value ++ [SField i]) ft d ->
                inside_fields value (FCons name tagstr true ft rest) i d) as Hin.
      { intros d. apply inside_fields_first. unfold walked. simpl.
        by rewrite Hs. }
      destruct err.
      * eapply walk_result_seq; [exact H1 | apply IHrest | exact Hin | |].
        -- intros d. apply inside_fields_rest.
        -- intros d1 d2. apply fields_apart.
      * eapply walk_result_impl; [exact Hin | reflexivity | exact H1].
      * eapply walk_result_impl; [exact Hin | reflexivity | exact H1].
Qed.

Lemma readStruct_from_sound (fs : Fields) (i : nat) (value : list step)
    (ctx : context) (w : walk) :
  walk_result (inside_fields value fs i) ctx w (readStruct_from fs i value ctx w).
Proof. apply walk_sound. Qed.

(** The descriptors that [ParseWithOptions] returns, seen from [conf]. *)
Lemma parse_elem_sound (ctx : context) (t : Type_) :
  forall elem w, exists new,
    w_config (parse_elem t elem ctx w).1 = w_config w ++ new /\
    Forall (inside elem t) new /\ targets_apart (target <$> new) = true.
Proof.
  apply (Type_mut
    (fun t => forall elem w, exists new,
       w_config (parse_elem t elem ctx w).1 = w_config w ++ new /\
       Forall (inside elem t) new /\ targets_apart (target <$> new) = true)
    (fun s => forall n u elem w, exists new,
       w_config (parse_elem (mkType n u s) elem ctx w).1 = w_config w ++ new /\
       Forall (inside elem (mkType n u s)) new /\
       targets_apart (target <$> new) = true)
    (fun _ => True));
    try done;
    try (intros; exists []; simpl; by rewrite app_nil_r).
  - intros e IH n u elem w. simpl.
    destruct (IH (elem ++ [SElem]) (alloc_if_nil w elem e))
      as (new & Hc & Hall & Hap).
    exists new. repeat split; [| |done].
    + rewrite Hc. unfold alloc_if_nil. by destruct (IsNil _).
    + eapply Forall_impl; [exact Hall|]. intros d. apply inside_ptr.
  - intros fs _ n u elem w. simpl. unfold readStruct.
    destruct (readStruct_from_sound fs 0 elem ctx w)
      as (new & Hc & Hall & Hap & _).
    exists new. repeat split; [done| |done].
    eapply Forall_impl; [exact Hall|]. intros d. apply inside_fields_struct.
Qed.

Lemma Parse_sound (t : Type_) (conf : Value) (opts : Options) :
  Forall (inside [] t) (w_config (ParseWithOptions t conf opts).1) /\
  targets_apart (target <$> w_config (ParseWithOptions t conf opts).1) = true.
Proof.
  unfold ParseWithOptions. destruct t as [n u s]. simpl.
  destruct s; try (by split; [constructor|]).
  destruct (IsNil conf); [by split; [constructor|]|].
  match goal with |- context [parse_elem ?e ?p ?c ?w] =>
    destruct (parse_elem_sound c e p w) as (new & Hc & Hall & Hap) end.
  simpl in Hc. rewrite Hc. split; [|done].
  eapply Forall_impl; [exact Hall|]. intros d Hd.
  apply (inside_ptr [] n u). exact Hd.
Qed.

Lemma forallb_weaken {A} (f g : A -> bool) (l : list A) :
  (forall x, f x = true -> g x = true) ->
  forallb f l = true -> forallb g l = true.
Proof.
  intros Hfg. induction l as [|x l IH]; simpl; [done|].
  intros H. apply andb_true_iff in H as [Hx Hl].
  by rewrite (Hfg x Hx), IH.
Qed.

Lemma Parse_trail (g : string * bool -> bool) (t : Type_) (conf : Value)
    (opts : Options) :
  (forall f, walked f = true -> g f = true) ->
  Forall (fun d => forallb g (trail (target d) t) = true)
         (w_config (ParseWithOptions t conf opts).1).
Proof.
  intros Hg. destruct (Parse_sound t conf opts) as [Hall _].
  eapply Forall_impl; [exact Hall|].
  intros d (q & Ht & Hq). rewrite Ht. simpl.
  by eapply forallb_weaken.
Qed.

Lemma setValue_env (R : GoRuntime) (env : string -> string) (fld : Field)
    (root : Value) :
  Forall (fun key => env key = os_Getenv key) (Field_Keys fld) ->
  @Field_setValue (with_env R env) fld root = @Field_setValue R fld root.
Proof.
  intros Hagree. unfold Field_setValue, Field_setField.
  rewrite (readValue_agree R (with_env R env) fld Hagree). reflexivity.
Qed.

Lemma Read_env (R : GoRuntime) (env : string -> string) (cinfo : ConfInfo)
    (root : Value) :
  Forall (fun d => Forall (fun key => env key = os_Getenv key) (Field_Keys d))
         cinfo ->
  @ConfInfo_Read (with_env R env) cinfo root = @ConfInfo_Read R cinfo root.
Proof.
  intros Hall. revert root.
  induction Hall as [|d cinfo Hd _ IH]; intros root; simpl; [done|].
  rewrite (setValue_env R env d root Hd).
  destruct (Field_setValue d root) as [[d' root'] out].
  destruct out; try done. by rewrite IH.
Qed.

(** ** The walk and the skip directive *)

(** C6.  A field whose tag holds the skip directive is passed over: the
    walk goes on to the next field with the configuration object and the
    list as they were, so nothing is registered for it, nothing is
    allocated in it and, when it is a struct, the walk does not enter it;
    or, when the field cannot be set and unexported fields are not
    allowed, the walk ends there with [ErrUnexportedField], the object and
    the list again as they were.  In the list that [ParseWithOptions]
    returns no descriptor refers to a variable in or below such a field.
    The walk does not look at the environment, and the read phase asks it
    for the keys of the listed descriptors and for nothing else. *)
Theorem skip_never_walked :
  (forall name tagstr exported ftype rest i value ctx w,
     tag_skip (parseTag tagstr) = true ->
     readStruct_from (FCons name tagstr exported ftype rest) i value ctx w =
       if negb exported && negb (ctx_allowUnexported ctx)
       then (w, Err ErrUnexportedField)
       else readStruct_from rest (S i) value ctx w) /\
  (forall t conf opts,
     Forall (fun d =>
               forallb (fun f => negb (tag_skip (parseTag f.1)))
                       (trail (target d) t) = true)
            (w_config (ParseWithOptions t conf opts).1)) /\
  (forall (R : GoRuntime) (env : string -> string) cinfo root,
     Forall (fun d => Forall (fun key => env key = os_Getenv key) (Field_Keys d))
            cinfo ->
     @ConfInfo_Read (with_env R env) cinfo root = @ConfInfo_Read R cinfo root).
Proof.
  split.
  { intros name tagstr exported ftype rest i value ctx w Hskip.
    rewrite readStruct_from_cons, Hskip. reflexivity. }
  split.
  { intros t conf opts. apply Parse_trail.
    intros f Hf. unfold walked in Hf. by apply andb_true_iff in Hf as [Hf _]. }
  apply Read_env.
Qed.

Lemma skip_never_walked_witness :
  readStruct_from (FCons "Secret" "-" true inner_t guarded_rest) 1 [SElem]
      (mkContext [] false true) (mkWalk guarded_conf []) =
    readStruct_from guarded_rest 2 [SElem]
      (mkContext [] false true) (mkWalk guarded_conf []) /\
  fld_name <$> w_config (ParseWithOptions guarded_t guarded_conf
                           (mkOptions "" false true)).1 = [["Name"]; ["Port"]].
Proof.
  destruct skip_never_walked as (Hstep & _ & _).
  split; [|reflexivity].
  rewrite (Hstep "Secret" "-" true inner_t guarded_rest 1%nat [SElem]
             (mkContext [] false true) (mkWalk guarded_conf []) eq_refl).
  reflexivity.
Defined.

(** ** The walk and unexported fields *)

Lemma walk_meets_unexported :
  (forall t field name tag ctx w,
     ctx_allowUnexported ctx = false ->
     (doRead t field name tag ctx w).2 =
       if meets_unexported t then Err ErrUnexportedField else Nil) /\
  (forall s n u field name tag ctx w,
     ctx_allowUnexported ctx = false ->
     (doRead (mkType n u s) field name tag ctx w).2 =
       if meets_unexported (mkType n u s) then Err ErrUnexportedField
       else Nil) /\
  (forall fs i value ctx w,
     ctx_allowUnexported ctx = false ->
     (readStruct_from fs i value ctx w).2 =
       if meets_unexported_fields fs then Err ErrUnexportedField else Nil).
Proof.
  apply Type_Shape_Fields_ind; try (intros; reflexivity).
  - intros n u s IH field name tag ctx w. exact (IH n u field name tag ctx w).
  - intros e IH n u field name tag ctx w Hno. simpl. by apply IH.
  - intros fs IH n u field name tag ctx w Hno. simpl. by apply IH.
  - intros name tagstr exported ft IHt rest IHrest i value ctx w Hno.
    rewrite readStruct_from_cons. cbn [meets_unexported_fields].
    destruct exported; simpl negb; cbv iota.
    + rewrite orb_false_r, andb_false_l.
      destruct (tag_skip (parseTag tagstr)); [by apply IHrest|].
      pose proof (IHt (value ++ [SField i]) name (parseTag tagstr) ctx w Hno)
        as Ht.
      destruct (doRead ft (value ++ [SField i]) name (parseTag tagstr) ctx w)
        as [w1 err].
      simpl in Ht. subst err.
      destruct (meets_unexported ft); [done | by apply IHrest].
    + by rewrite orb_true_r, Hno.
Qed.

Lemma parse_elem_meets_unexported (ctx : context) (t : Type_) :
  ctx_allowUnexported ctx = false ->
  ends_in_struct t = true ->
  forall elem w,
    (parse_elem t elem ctx w).2 =
      if meets_unexported t then Err ErrUnexportedField else Nil.
Proof.
  intros Hno.
  apply (Type_mut
    (fun t => ends_in_struct t = true -> forall elem w,
       (parse_elem t elem ctx w).2 =
         if meets_unexported t then Err ErrUnexportedField else Nil)
    (fun s => forall n u, ends_in_struct (mkType n u s) = true ->
       forall elem w,
       (parse_elem (mkType n u s) elem ctx w).2 =
         if meets_unexported (mkType n u s) then Err ErrUnexportedField
         else Nil)
    (fun _ => True));
    try done.
  - intros n u s IH. exact (IH n u).
  - intros e IH n u Hends elem w. simpl. by apply IH.
  - intros fs _ n u _ elem w. simpl. unfold readStruct.
    by apply walk_meets_unexported.
Qed.

Lemma parse_elem_kind (ctx : context) (t : Type_) :
  forall elem w,
    (parse_elem t elem ctx w).2 = Err ErrInvalidValueKind <->
    ends_in_struct t = false.
Proof.
  apply (Type_mut
    (fun t => forall elem w,
       (parse_elem t elem ctx w).2 = Err ErrInvalidValueKind <->
       ends_in_struct t = false)
    (fun s => forall n u elem w,
       (parse_elem (mkType n u s) elem ctx w).2 = Err ErrInvalidValueKind <->
       ends_in_struct (mkType n u s) = false)
    (fun _ => True));
    try done.
  - intros e IH n u elem w. simpl. apply IH.
  - intros fs _ n u elem w. simpl. unfold readStruct.
    destruct (readStruct_from_sound fs 0 elem ctx w)
      as (_ & _ & _ & _ & [Hout|[Hout _]]); rewrite Hout; done.
Qed.

(** C7.  On a field that cannot be set the walk stops with
    [ErrUnexportedField], the configuration object and the list as they
    were, unless unexported fields are allowed; then it goes on to the next
    field as if the field were not there.  The tag of the field, a skip
    directive included, plays no part.  With unexported fields allowed the
    walk of a struct never fails, and no descriptor that
    [ParseWithOptions] returns refers to a variable in or below an
    unexported field.  An error from inside a field ends the walk of the
    struct that holds the field: the fields after it are not visited and
    the error is returned as it is.  So, with unexported fields not
    allowed, the walk of a struct returns [ErrUnexportedField] exactly
    when it comes to a field that cannot be set, at whatever depth, and no
    error otherwise; and so does [ParseWithOptions] on a pointer that is
    not nil and leads to a struct.  (The types are finite trees: a struct
    that holds itself through a pointer is not among them.) *)
Theorem unexported_field_walk :
  (forall name tagstr ftype rest i value ctx w,
     readStruct_from (FCons name tagstr false ftype rest) i value ctx w =
       if ctx_allowUnexported ctx
       then readStruct_from rest (S i) value ctx w
       else (w, Err ErrUnexportedField)) /\
  (forall fs i value ctx w,
     ctx_allowUnexported ctx = true ->
     (readStruct_from fs i value ctx w).2 = Nil) /\
  (forall t conf opts,
     Forall (fun d => forallb snd (trail (target d) t) = true)
            (w_config (ParseWithOptions t conf opts).1)) /\
  (forall name tagstr ftype rest i value ctx w,
     tag_skip (parseTag tagstr) = false ->
     (doRead ftype (value ++ [SField i]) name (parseTag tagstr) ctx w).2
       <> Nil ->
     readStruct_from (FCons name tagstr true ftype rest) i value ctx w =
       doRead ftype (value ++ [SField i]) name (parseTag tagstr) ctx w) /\
  (forall fs i value ctx w,
     ctx_allowUnexported ctx = false ->
     (readStruct_from fs i value ctx w).2 =
       if meets_unexported_fields fs then Err ErrUnexportedField else Nil) /\
  (forall t e conf opts,
     t_shape t = SPtr e -> IsNil conf = false -> ends_in_struct e = true ->
     AllowUnexported opts = false ->
     (ParseWithOptions t conf opts).2 =
       if meets_unexported e then Err ErrUnexportedField else Nil).
Proof.
  split.
  { intros name tagstr ftype rest i value ctx w.
    rewrite readStruct_from_cons, orb_true_r. simpl.
    by destruct (ctx_allowUnexported ctx). }
  split.
  { intros fs i value ctx w Hallow.
    destruct (readStruct_from_sound fs i value ctx w)
      as (_ & _ & _ & _ & [Hout|[_ Hout]]); [done | congruence]. }
  split.
  { intros t conf opts. apply Parse_trail.
    intros f Hf. unfold walked in Hf. by apply andb_true_iff in Hf as [_ Hf]. }
  split.
  { intros name tagstr ftype rest i value ctx w Hskip Hfail.
    rewrite readStruct_from_cons, Hskip. simpl.
    destruct (doRead ftype (value ++ [SField i]) name (parseTag tagstr) ctx w)
      as [w1 err].
    by destruct err. }
  split.
  { intros fs i value ctx w Hno. by apply walk_meets_unexported. }
  intros t e conf opts Hs Hnil Hends Hno.
  unfold ParseWithOptions. cbv zeta. rewrite Hs, Hnil.
  by apply parse_elem_meets_unexported.
Qed.

Lemma unexported_field_walk_witness :
  (readStruct_from guarded_fields 0 [SElem] (mkContext [] false true)
     (mkWalk guarded_conf [])).2 = Nil /\
  (ParseWithOptions guarded_t guarded_conf (mkOptions "" false false)).2 =
    Err ErrUnexportedField /\
  ParseWithOptions outer_t outer_conf (mkOptions "" false false) =
    (mkWalk outer_conf [], Err ErrUnexportedField).
Proof.
  destruct unexported_field_walk as (_ & Hallow & _ & _ & _ & Hparse).
  split; [apply Hallow; reflexivity|]. split; [reflexivity|].
  pose proof (Hparse outer_t _ outer_conf (mkOptions "" false false)
                eq_refl eq_refl eq_refl eq_refl) as Hout.
  destruct (ParseWithOptions outer_t outer_conf (mkOptions "" false false))
    as [w out] eqn:E.
  simpl in Hout. subst out. f_equal.
  vm_compute in E. by injection E as <-.
Defined.

(** ** Struct tokens *)

Section StructTokens.
Context (R : GoRuntime).

Lemma parseValue_struct (n : string) (u : bool) (fs : Fields) (v : Value)
    (str : string) :
  isUnmarshaler (mkType n u (SStruct fs)) = false ->
  isDurationField (mkType n u (SStruct fs)) = false ->
  parseValue (mkType n u (SStruct fs)) v str = Field_parseStruct fs v str.
Proof.
  intros Hu Hd. cbn -[isUnmarshaler isDurationField parseStruct_body].
  by rewrite Hu, Hd.
Qed.

Lemma slice_expr_short (token : string) :
  len token < 2 -> slice_expr token 1 (len token - 1) = None.
Proof.
  intros Hlen. unfold slice_expr.
  destruct (Z.leb_spec 1 (len token - 1)); [lia|].
  by rewrite andb_false_r.
Qed.

Lemma slice_expr_long (token : string) :
  2 <= len token -> is_Some (slice_expr token 1 (len token - 1)).
Proof.
  intros Hlen. unfold slice_expr.
  destruct (Z.leb_spec 1 (len token - 1)); [|lia].
  destruct (Z.leb_spec (len token - 1) (len token)); [|lia].
  simpl. eauto.
Qed.

End StructTokens.

(** C10.  A token shorter than two bytes cannot be stripped of its first
    and last byte: the slice expression [token[1:len(token)-1]] is out of
    range, and it is in range for every longer token.  [parseStruct]
    evaluates it before anything else, so on such a token it panics and
    returns no error; so does [parseValue] on a variable of a struct type,
    the loop of [setSliceField] when it comes to such a token, and
    [setSliceField] itself for a slice of structs whose first token is
    that short. *)
Theorem parseStruct_short_token (R : GoRuntime) (token : string) :
  len token < 2 ->
  slice_expr token 1 (len token - 1) = None /\
  (forall fs value,
     Field_parseStruct fs value token =
       (value, Panic "slice bounds out of range")) /\
  (forall n u fs value,
     isUnmarshaler (mkType n u (SStruct fs)) = false ->
     isDurationField (mkType n u (SStruct fs)) = false ->
     parseValue (mkType n u (SStruct fs)) value token =
       (value, Panic "slice bounds out of range")) /\
  (forall n u fs rest slice,
     isUnmarshaler (mkType n u (SStruct fs)) = false ->
     isDurationField (mkType n u (SStruct fs)) = false ->
     setSlice_loop (mkType n u (SStruct fs)) (token :: rest) slice =
       (slice, Panic "slice bounds out of range")) /\
  (forall n u fs value str rest err,
     isUnmarshaler (mkType n u (SStruct fs)) = false ->
     isDurationField (mkType n u (SStruct fs)) = false ->
     sliceTokenizer str = (token :: rest, err) ->
     Field_setSliceField (mkType n u (SStruct fs)) value str =
       (value, Panic "slice bounds out of range")) /\
  (forall tok, 2 <= len tok -> is_Some (slice_expr tok 1 (len tok - 1))).
Proof.
  intros Hlen.
  pose proof (slice_expr_short token Hlen) as Hs.
  assert (forall fs value,
            Field_parseStruct fs value token =
              (value, Panic "slice bounds out of range")) as Hps.
  { intros fs value. unfold Field_parseStruct, parseStruct_body.
    by rewrite Hs. }
  assert (forall n u fs rest slice,
     isUnmarshaler (mkType n u (SStruct fs)) = false ->
     isDurationField (mkType n u (SStruct fs)) = false ->
     setSlice_loop (mkType n u (SStruct fs)) (token :: rest) slice =
       (slice, Panic "slice bounds out of range")) as Hloop.
  { intros n u fs rest slice Hu Hd.
    cbn [setSlice_loop]. by rewrite (parseValue_struct R n u fs _ _ Hu Hd), Hps. }
  split; [done|]. split; [done|].
  split. { intros n u fs value Hu Hd. by rewrite parseValue_struct. }
  split; [done|].
  split; [|apply slice_expr_long].
  intros n u fs value str rest err Hu Hd Htok.
  unfold Field_setSliceField. rewrite Htok.
  by rewrite (Hloop n u fs rest _ Hu Hd).
Qed.

Lemma parseStruct_short_token_witness :
  @Field_setSliceField (sample_runtime ∅) point_t VNil "(1,2),"
    = (VNil, Panic "slice bounds out of range") /\
  @Field_parseStruct (sample_runtime ∅)
     (FCons "X" "" true int_t (FCons "Y" "" true int_t FNil))
     (VStruct [VInt 0; VInt 0]) "x"
    = (VStruct [VInt 0; VInt 0], Panic "slice bounds out of range") /\
  @Field_setField (sample_runtime (<["POINTS" := "x"]> ∅)) points_field
     points_t VNil
    = (set_strValue points_field "x", VNil, Panic "slice bounds out of range").
Proof.
  assert (len "x" < 2) as Hlen by (vm_compute; reflexivity).
  destruct (parseStruct_short_token (sample_runtime ∅) "x" Hlen)
    as (_ & Hps & _).
  split; [vm_compute; reflexivity|].
  split; [apply Hps | vm_compute; reflexivity].
Defined.

(** ** The package's example, run *)

(** With [REMOTE_HOST=localhost] and [PORT=80] the three fields end as
    [https], [localhost] and [80], and each descriptor records the string
    it was set from. *)
Example Init_example :
  let '(cinfo, conf, err) :=
    @InitWithOptions (sample_runtime example_environ) example_t example_conf
                     (mkOptions "" false false) in
  conf = VPtr (VStruct [VString "https"; VString "localhost"; VInt 80]) /\
  err = Nil /\
  Field_Value <$> cinfo = ["https"; "localhost"; "80"] /\
  Field_Name <$> cinfo = ["Protocol"; "RemoteHost"; "Port"].
Proof. vm_compute. repeat split. Qed.

Example RemoteHost_keys :
  Field_Keys remoteHost_field =
    ["REMOTEHOST"; "REMOTE_HOST"; "remote_host"; "remotehost"].
Proof. vm_compute. reflexivity. Qed.

(** The walk of the example makes the three descriptors used above. *)
Example Parse_example :
  w_config (Parse example_t example_conf).1 =
    [protocol_field; remoteHost_field; port_field].
Proof. vm_compute. reflexivity. Qed.

(** A prefix becomes the first segment of every path. *)
Example ParseWithPrefix_example :
  fld_name <$> w_config (ParseWithPrefix example_t example_conf "App").1 =
    [["App"; "Protocol"]; ["App"; "RemoteHost"]; ["App"; "Port"]].
Proof. vm_compute. reflexivity. Qed.

(** A slice of structs is read token by token. *)
Example Points_example :
  @Field_setField (sample_runtime (<["POINTS" := "(1,2),(3,4)"]> ∅))
     points_field points_t VNil =
    (set_strValue points_field "(1,2),(3,4)",
     VSlice [VStruct [VInt 1; VInt 2]; VStruct [VInt 3; VInt 4]], Nil).
Proof. vm_compute. reflexivity. Qed.

(* ================================================================= *)
(** * Further properties *)

(** ** The keys of a path in closed form *)

Lemma write_part_forms (n : list rune) (rest : string) (i : Z)
    (b1 b2 : Buffer) :
  write_part n rest i (b1, b2) = (b1 +:+ word_form_from n rest i, b2 +:+ rest).
Proof.
  revert i b1 b2. induction rest as [|r rest IH]; intros i b1 b2; simpl.
  - by rewrite !append_nil_r.
  - rewrite IH. unfold inserts, WriteRune.
    destruct ((i >? 0) && unicode_IsUpper r && prevOrNextLower n i);
      rewrite ?append_nil_l; by rewrite !append_assoc.
Qed.

Lemma write_parts_forms (parts : list string) (j : Z) (b1 b2 : Buffer) :
  0 <= j ->
  write_parts parts j (b1, b2) =
    match parts with
    | [] => (b1, b2)
    | _ =>
        let sep : string := if j >? 0 then "_" else "" in
        (b1 +:+ sep +:+ strings_Join (word_form <$> parts) "_",
         b2 +:+ sep +:+ strings_Join parts "_")
    end.
Proof.
  revert j b1 b2. induction parts as [|part parts IH]; intros j b1 b2 Hj;
    [done|].
  cbn [write_parts]. unfold word_form at 1.
  assert (forall c1 c2,
            write_parts parts (j + 1)
              (write_part (runes part) part 0 (c1, c2)) =
            match parts with
            | [] => (c1 +:+ word_form part, c2 +:+ part)
            | _ =>
                (c1 +:+ word_form part +:+ "_" +:+
                   strings_Join (word_form <$> parts) "_",
                 c2 +:+ part +:+ "_" +:+ strings_Join parts "_")
            end) as Hstep.
  { intros c1 c2. rewrite write_part_forms, IH by lia.
    destruct parts as [|p2 parts]; [done|].
    destruct (Z.gtb_spec (j + 1) 0); [|lia]. simpl.
    by rewrite !append_assoc. }
  destruct (j >? 0); simpl fst; simpl snd; rewrite Hstep; unfold WriteRune;
    destruct parts as [|p2 parts]; simpl; by rewrite ?append_assoc.
Qed.

Lemma Keys_closed_form (name : fieldName) :
  fieldName_Keys name =
    sort_Strings (elements (key_set (strings_Join (word_form <$> name) "_",
                                     strings_Join name "_"))).
Proof.
  unfold fieldName_Keys. rewrite write_parts_forms by lia.
  by destruct name.
Qed.

Lemma Map_app (f : rune -> rune) (a b : string) :
  strings_Map f (a +:+ b) = strings_Map f a +:+ strings_Map f b.
Proof.
  induction a as [|c a IH]; string_simpl; [done|]. simpl.
  by rewrite IH, ?append_cons.
Qed.

Lemma Map_Map (f g h : rune -> rune) (s : string) :
  (forall c, f (g c) = h c) ->
  strings_Map f (strings_Map g s) = strings_Map h s.
Proof. intros E. induction s as [|c s IH]; simpl; [done | by rewrite E, IH]. Qed.

Lemma case_rune (c : rune) :
  unicode_ToUpper (unicode_ToUpper c) = unicode_ToUpper c /\
  unicode_ToLower (unicode_ToLower c) = unicode_ToLower c /\
  unicode_ToUpper (unicode_ToLower c) = unicode_ToUpper c /\
  unicode_ToLower (unicode_ToUpper c) = unicode_ToLower c.
Proof.
  destruct c as [[] [] [] [] [] [] [] []]; vm_compute; done.
Qed.

Lemma ToUpper_ToUpper (s : string) :
  strings_ToUpper (strings_ToUpper s) = strings_ToUpper s.
Proof. apply Map_Map. intros c. apply case_rune. Qed.

Lemma ToLower_ToLower (s : string) :
  strings_ToLower (strings_ToLower s) = strings_ToLower s.
Proof. apply Map_Map. intros c. apply case_rune. Qed.

Lemma ToUpper_ToLower (s : string) :
  strings_ToUpper (strings_ToLower s) = strings_ToUpper s.
Proof. apply Map_Map. intros c. apply case_rune. Qed.

Lemma ToLower_ToUpper (s : string) :
  strings_ToLower (strings_ToUpper s) = strings_ToLower s.
Proof. apply Map_Map. intros c. apply case_rune. Qed.

Lemma Keys_elem (name : fieldName) (k : string) :
  k ∈ fieldName_Keys name <->
  k ∈ [strings_ToUpper (strings_Join name "_");
       strings_ToLower (strings_Join name "_");
       strings_ToUpper (strings_Join (word_form <$> name) "_");
       strings_ToLower (strings_Join (word_form <$> name) "_")].
Proof.
  rewrite Keys_closed_form. unfold sort_Strings.
  rewrite merge_sort_Permutation, elem_of_elements. unfold key_set. simpl.
  set_solver.
Qed.

(** ** The word-boundary form against the plain form *)

Lemma underscored_refl (a : string) : underscored a a.
Proof. induction a; by constructor. Qed.

Lemma underscored_app (a1 a2 b1 b2 : string) :
  underscored a1 b1 -> underscored a2 b2 ->
  underscored (a1 +:+ a2) (b1 +:+ b2).
Proof.
  intros H1 H2. induction H1; rewrite ?append_cons, ?append_nil_l;
    [done | by constructor | by constructor].
Qed.

Lemma inserts_upper (n : list rune) (i : Z) (r : rune) :
  inserts n i r = true -> unicode_IsUpper r = true.
Proof.
  unfold inserts. intros H. apply andb_true_iff in H as [H _].
  by apply andb_true_iff in H as [_ H].
Qed.

Lemma word_form_from_underscored (n : list rune) (rest : string) (i : Z) :
  underscored (word_form_from n rest i) rest.
Proof.
  revert i. induction rest as [|r rest IH]; intros i; simpl; [constructor|].
  destruct (inserts n i r) eqn:E.
  - rewrite append_cons, append_nil_l. constructor; [|done].
    by eapply inserts_upper.
  - rewrite append_nil_l. by constructor.
Qed.

Lemma Join_underscored (name : fieldName) :
  underscored (strings_Join (word_form <$> name) "_") (strings_Join name "_").
Proof.
  induction name as [|part name IH]; [constructor|].
  destruct name as [|p2 name].
  - apply word_form_from_underscored.
  - change (underscored
              (word_form part +:+ "_" +:+ strings_Join (word_form <$> p2 :: name) "_")
              (part +:+ "_" +:+ strings_Join (p2 :: name) "_")).
    apply underscored_app; [apply word_form_from_underscored|].
    apply underscored_app; [apply underscored_refl | exact IH].
Qed.

Lemma underscore_rune (c : rune) :
  unicode_IsUpper c = true ->
  ("_" ?= unicode_ToLower c)%char = Lt /\ (unicode_ToUpper c ?= "_")%char = Lt.
Proof.
  destruct c as [[] [] [] [] [] [] [] []]; vm_compute; try done.
Qed.

Lemma underscored_order (a b : string) :
  underscored a b ->
  String.le (strings_ToUpper a) (strings_ToLower b) /\
  String.le (strings_ToUpper b) (strings_ToLower a).
Proof.
  unfold String.le, String.leb, strings_ToUpper, strings_ToLower.
  induction 1 as [|c a b _ [IH1 IH2]|c a b Hc _ _]; simpl; [done| |].
  - pose proof (upper_le_lower_rune c).
    destruct (unicode_ToUpper c ?= unicode_ToLower c)%char; done.
  - destruct (underscore_rune c Hc) as [H1 H2].
    change (unicode_ToUpper "_") with ("_"%char).
    change (unicode_ToLower "_") with ("_"%char).
    by rewrite H1, H2.
Qed.

Lemma underscored_letter (a b : string) :
  underscored a b -> has_letter a = has_letter b.
Proof.
  unfold has_letter, runes.
  induction 1 as [|c a b _ IH|c a b _ _ IH]; simpl; [done| |];
    by rewrite IH.
Qed.

Lemma underscored_case (a b : string) :
  underscored a b ->
  (strings_ToUpper a = strings_ToUpper b <-> strings_ToLower a = strings_ToLower b).
Proof.
  intros _. split; intros E.
  - by rewrite <- (ToLower_ToUpper a), E, ToLower_ToUpper.
  - by rewrite <- (ToUpper_ToLower a), E, ToUpper_ToLower.
Qed.

Lemma is_upper_key_upper (s : string) : is_upper_key (strings_ToUpper s) = true.
Proof. unfold is_upper_key. rewrite ToUpper_ToUpper. apply String.eqb_refl. Qed.

Lemma is_upper_key_lower (s : string) :
  is_upper_key (strings_ToLower s) = negb (has_letter s).
Proof.
  unfold is_upper_key. rewrite ToUpper_ToLower.
  pose proof (upper_lower_letter s) as Hl.
  destruct (has_letter s); simpl.
  - apply String.eqb_neq. intros E. apply Hl in E. done.
  - apply String.eqb_eq. by apply Hl.
Qed.

Lemma pair_elements (x y : string) :
  length (elements ({[x]} ∪ {[y]} : gset string)) = if decide (x = y) then 1%nat else 2%nat.
Proof.
  case_decide as E.
  - subst. assert (({[y]} ∪ {[y]} : gset string) = {[y]}) as -> by set_solver.
    by rewrite elements_singleton.
  - rewrite elements_union_singleton by set_solver.
    by rewrite elements_singleton.
Qed.

Lemma le_trans_string : Transitive String.le.
Proof. apply _. Qed.

Lemma filter_keep {A} (f : A -> bool) (l : list A) :
  Forall (fun x => f x = true) l -> List.filter f l = l.
Proof. induction 1 as [|x l Hx _ IH]; simpl; [done|]. by rewrite Hx, IH. Qed.

Lemma filter_drop {A} (f : A -> bool) (l : list A) :
  Forall (fun x => f x = false) l -> List.filter f l = [].
Proof. induction 1 as [|x l Hx _ IH]; simpl; [done|]. by rewrite Hx. Qed.

(** With a letter in the path, the sorted keys are the uppercase ones
    followed by the lowercase ones, as many of each. *)
Lemma Keys_upper_then_lower (name : fieldName) :
  has_letter (strings_Join name "_") = true ->
  exists uppers lowers,
    fieldName_Keys name = uppers ++ lowers /\
    length uppers = length lowers /\
    Forall (fun k => is_upper_key k = true) uppers /\
    Forall (fun k => is_upper_key k = false) lowers.
Proof.
  intros Hl.
  set (J2 := strings_Join name "_") in *.
  set (J1 := strings_Join (word_form <$> name) "_").
  pose proof (Join_underscored name) as Hu. fold J1 J2 in Hu.
  assert (has_letter J1 = true) as Hl1
    by (by rewrite (underscored_letter _ _ Hu)).
  set (SU := ({[strings_ToUpper J2]} ∪ {[strings_ToUpper J1]} : gset string)).
  set (SL := ({[strings_ToLower J2]} ∪ {[strings_ToLower J1]} : gset string)).
  assert (forall k, k ∈ SU -> is_upper_key k = true) as HSU.
  { intros k Hk. apply elem_of_union in Hk as [Hk|Hk];
      apply elem_of_singleton in Hk; subst; apply is_upper_key_upper. }
  assert (forall k, k ∈ SL -> is_upper_key k = false) as HSL.
  { intros k Hk. apply elem_of_union in Hk as [Hk|Hk];
      apply elem_of_singleton in Hk; subst; rewrite is_upper_key_lower;
      by rewrite ?Hl, ?Hl1. }
  assert (SU ## SL) as Hdisj.
  { intros k H1 H2. apply HSU in H1. apply HSL in H2. congruence. }
  exists (sort_Strings (elements SU)), (sort_Strings (elements SL)).
  split; [|split; [|split]].
  - rewrite Keys_closed_form. fold J1 J2. apply sort_Strings_unique.
    + apply StronglySorted_Sorted, StronglySorted_app_2.
      * intros x y Hx Hy.
        rewrite sort_Strings_perm in Hx, Hy.
        apply elem_of_elements in Hx, Hy.
        destruct (underscored_order _ _ Hu) as [H12 H21].
        pose proof (upper_le_lower J1). pose proof (upper_le_lower J2).
        apply elem_of_union in Hx as [Hx|Hx], Hy as [Hy|Hy];
          apply elem_of_singleton in Hx, Hy; by subst.
      * apply Sorted_StronglySorted; [apply _ | apply sort_Strings_sorted].
      * apply Sorted_StronglySorted; [apply _ | apply sort_Strings_sorted].
    + rewrite !sort_Strings_perm, <- elements_disj_union by done.
      assert (key_set (J1, J2) = SU ∪ SL) as ->
        by (unfold key_set, SU, SL; simpl; set_solver).
      done.
  - rewrite !sort_Strings_perm. unfold SU, SL. rewrite !pair_elements.
    pose proof (underscored_case _ _ Hu) as Hc.
    repeat case_decide; try done.
    + exfalso. symmetry in H. apply Hc in H. congruence.
    + exfalso. symmetry in H0. apply Hc in H0. congruence.
  - apply Forall_forall. intros k Hk. apply HSU.
    rewrite sort_Strings_perm in Hk. by apply elem_of_elements in Hk.
  - apply Forall_forall. intros k Hk. apply HSL.
    rewrite sort_Strings_perm in Hk. by apply elem_of_elements in Hk.
Qed.

(** X1.  The keys of a path are exactly the uppercase and the lowercase
    spelling of two strings: the segments joined by underscores, and the
    same with every segment in the form that the inner loop writes, which
    is the segment with underscores put in front of some of its uppercase
    letters.  So a descriptor always has at least one key. *)
Theorem Keys_are_the_four_spellings (name : fieldName) :
  let plain := strings_Join name "_" in
  let words := strings_Join (word_form <$> name) "_" in
  (forall k, k ∈ fieldName_Keys name <->
     k ∈ [strings_ToUpper plain; strings_ToLower plain;
          strings_ToUpper words; strings_ToLower words]) /\
  underscored words plain /\
  fieldName_Keys name <> [] /\
  (forall fld, Field_Keys fld <> []).
Proof.
  intros plain words.
  assert (forall n, fieldName_Keys n <> []) as Hne.
  { intros n E. pose proof (Keys_elem n (strings_ToUpper (strings_Join n "_"))) as [_ H].
    rewrite E in H. apply elem_of_nil in H; [done | set_solver]. }
  split; [apply Keys_elem|]. split; [apply Join_underscored|].
  split; [apply Hne|].
  intros fld. unfold Field_Keys.
  destruct (negb (String.eqb (fld_customName fld) "")); [done | apply Hne].
Qed.

(** X2.  For a path of ASCII text, every key is all in upper case or all
    in lower case, and with a key its uppercase and its lowercase spelling
    are keys too.  (Beyond ASCII Go's casing is not the one of the
    embedding, and the statement is not made.) *)
Theorem Keys_closed_under_case (name : fieldName) (k : string) :
  ascii_name name = true ->
  k ∈ fieldName_Keys name ->
  (strings_ToUpper k = k \/ strings_ToLower k = k) /\
  strings_ToUpper k ∈ fieldName_Keys name /\
  strings_ToLower k ∈ fieldName_Keys name.
Proof.
  intros _. rewrite !Keys_elem. intros Hk.
  repeat (apply elem_of_cons in Hk as [->|Hk]); [| | | |by apply elem_of_nil in Hk];
    rewrite ?ToUpper_ToUpper, ?ToLower_ToLower, ?ToUpper_ToLower,
      ?ToLower_ToUpper;
    (split; [auto|]); split; set_solver.
Qed.

Lemma Keys_closed_under_case_witness :
  ascii_name ["RemoteHost"] = true /\
  "REMOTE_HOST" ∈ fieldName_Keys ["RemoteHost"] /\
  "remote_host" ∈ fieldName_Keys ["RemoteHost"].
Proof.
  assert ("REMOTE_HOST" ∈ fieldName_Keys ["RemoteHost"]) as Hk
    by (vm_compute; set_solver).
  split; [reflexivity|]. split; [done|].
  destruct (Keys_closed_under_case ["RemoteHost"] "REMOTE_HOST" eq_refl Hk)
    as (_ & _ & Hl).
  exact Hl.
Defined.

(** X3.  For a descriptor without a custom name whose path is ASCII text
    and holds a letter, [keysUpper] gives exactly the keys in upper case,
    which are half of the keys and include the uppercase spelling of the
    joined path.  For a descriptor with a custom name [keysUpper] gives no
    key at all.  (Beyond ASCII neither Go's casing nor the byte order of
    its two cases is the one of the embedding, and the first part is not
    stated.) *)
Theorem keysUpper_lists_upper_keys (fld : Field) :
  (fld_customName fld = "" ->
   ascii_name (fld_name fld) = true ->
   has_letter (strings_Join (fld_name fld) "_") = true ->
   keysUpper fld = List.filter is_upper_key (Field_Keys fld) /\
   length (Field_Keys fld) = (2 * length (keysUpper fld))%nat /\
   strings_ToUpper (strings_Join (fld_name fld) "_") ∈ keysUpper fld) /\
  (fld_customName fld <> "" -> keysUpper fld = []).
Proof.
  split.
  - intros Hc _ Hl.
    unfold keysUpper. cbv zeta.
    assert (Field_Keys fld = fieldName_Keys (fld_name fld)) as ->
      by (unfold Field_Keys; by rewrite Hc).
    destruct (Keys_upper_then_lower (fld_name fld) Hl)
      as (uppers & lowers & HK & Hlen & HU & HL).
    assert (take (length (fieldName_Keys (fld_name fld)) / 2)
                 (fieldName_Keys (fld_name fld)) = uppers) as Htake.
    { rewrite HK, length_app, <- Hlen.
      replace (length uppers + length uppers)%nat
        with (length uppers * 2)%nat by lia.
      rewrite Nat.div_mul by done. apply take_app_length. }
    rewrite Htake. split; [|split].
    + rewrite HK, List.filter_app, (filter_keep _ _ HU), (filter_drop _ _ HL).
      by rewrite app_nil_r.
    + rewrite HK, length_app. lia.
    + pose proof (Keys_elem (fld_name fld)
                    (strings_ToUpper (strings_Join (fld_name fld) "_")))
        as [_ Hin].
      rewrite HK in Hin. apply elem_of_app in Hin as [Hin|Hin];
        [done| |set_solver].
      rewrite Forall_forall in HL. apply HL in Hin.
      by rewrite is_upper_key_upper in Hin.
  - intros Hc. unfold keysUpper, Field_Keys.
    apply String.eqb_neq in Hc. by rewrite Hc.
Qed.

Lemma keysUpper_lists_upper_keys_witness :
  keysUpper remoteHost_field = ["REMOTEHOST"; "REMOTE_HOST"] /\
  keysUpper (mkField ["Host"] (mkRValue string_t []) "" "HOSTNAME" "" ""
                     false false) = [].
Proof.
  destruct (keysUpper_lists_upper_keys remoteHost_field) as [Hup _].
  destruct (Hup eq_refl eq_refl eq_refl) as (Hk & _).
  split; [rewrite Hk; vm_compute; reflexivity|].
  apply keysUpper_lists_upper_keys. discriminate.
Defined.

(** ** What the walk writes into the descriptors *)

Lemma walk_adds_none (ok : Field -> Prop) (w : walk) (out : outcome) :
  walk_adds ok w (w, out).
Proof. exists []. simpl. by rewrite app_nil_r. Qed.

Lemma walk_adds_alloc (ok : Field -> Prop) (w : walk) (field : list step)
    (e : Type_) (r : walk * outcome) :
  walk_adds ok (alloc_if_nil w field e) r -> walk_adds ok w r.
Proof.
  intros (new & Hc & Hall). exists new. split; [|done].
  rewrite Hc. unfold alloc_if_nil. by destruct (IsNil _).
Qed.

Lemma walk_adds_impl (ok ok' : Field -> Prop) (w : walk) (r : walk * outcome) :
  (forall d, ok d -> ok' d) -> walk_adds ok w r -> walk_adds ok' w r.
Proof.
  intros Hok (new & Hc & Hall). exists new. split; [done|].
  eapply Forall_impl; eauto.
Qed.

Lemma walk_adds_seq (ok : Field -> Prop) (w w1 : walk) (out1 : outcome)
    (r2 : walk * outcome) :
  walk_adds ok w (w1, out1) -> walk_adds ok w1 r2 -> walk_adds ok w r2.
Proof.
  intros (new1 & Hc1 & Hall1) (new2 & Hc2 & Hall2).
  exists (new1 ++ new2). simpl in Hc1. split.
  - by rewrite Hc2, Hc1, app_assoc.
  - by apply Forall_app.
Qed.

Lemma made_under_weaken (prefix p' : fieldName) (o o' a : bool) (d : Field) :
  (o' = true -> o = true) ->
  made_under (prefix ++ p') o a d -> made_under prefix o' a d.
Proof.
  intros Ho (Hs & Ha & Hopt & (rest & Hn) & Hk). repeat split; try tauto.
  exists (p' ++ rest). by rewrite Hn, app_assoc.
Qed.

(** The descriptors that the walk appends, by induction on the type. *)
Lemma walk_makes :
  (forall t field name tag ctx w,
     walk_adds (made_under (ctx_name ctx ++ [name])
                           (ctx_optional ctx || tag_optional tag)
                           (ctx_allowUnexported ctx))
               w (doRead t field name tag ctx w)) /\
  (forall s n u field name tag ctx w,
     walk_adds (made_under (ctx_name ctx ++ [name])
                           (ctx_optional ctx || tag_optional tag)
                           (ctx_allowUnexported ctx))
               w (doRead (mkType n u s) field name tag ctx w)) /\
  (forall fs i value ctx w,
     walk_adds (made_in ctx) w (readStruct_from fs i value ctx w)).
Proof.
  assert (forall (s : Shape) n u field name tag ctx w,
            Type_Kind (mkType n u s) <> Ptr ->
            Type_Kind (mkType n u s) <> Struct ->
            walk_adds (made_under (ctx_name ctx ++ [name])
                                  (ctx_optional ctx || tag_optional tag)
                                  (ctx_allowUnexported ctx))
              w (ConfInfo_append w
                   (mkField (fieldName_Append (ctx_name ctx) name)
                      (mkRValue (mkType n u s) field) ""
                      (tag_customName tag) (tag_defaultVal tag) (tag_note tag)
                      (ctx_optional ctx || tag_optional tag)
                      (ctx_allowUnexported ctx)), Nil)) as Hleaf.
  { intros s n u field name tag ctx w Hp Hs.
    eexists. split; [simpl; reflexivity|].
    repeat constructor; try done. exists []. by rewrite app_nil_r. }
  apply Type_Shape_Fields_ind.
  - intros n u s IH. apply IH.
  - intros; by apply Hleaf.
  - intros w0 **; apply Hleaf; by destruct w0.
  - intros w0 **; apply Hleaf; by destruct w0.
  - intros w0 **; apply Hleaf; by destruct w0.
  - intros; by apply Hleaf.
  - intros e IH n u field name tag ctx w. simpl.
    eapply walk_adds_alloc. apply IH.
  - intros; by apply Hleaf.
  - intros; by apply Hleaf.
  - intros fs IH n u field name tag ctx w. simpl.
    eapply walk_adds_impl; [|apply IH].
    intros d [n' Hd]. simpl in Hd.
    eapply made_under_weaken; [|exact Hd]. done.
  - intros k **; apply Hleaf; by destruct k.
  - intros i value ctx w. apply walk_adds_none.
  - intros name tagstr exported ft IHt rest IHrest i value ctx w.
    rewrite readStruct_from_cons.
    destruct (tag_skip (parseTag tagstr) || negb exported).
    + destruct (negb exported && negb (ctx_allowUnexported ctx));
        [apply walk_adds_none | apply IHrest].
    + pose proof (IHt (value ++ [SField i]) name (parseTag tagstr) ctx w) as H1.
      destruct (doRead ft (value ++ [SField i]) name (parseTag tagstr) ctx w)
        as [w1 err].
      assert (walk_adds (made_in ctx) w (w1, err)) as H1'.
      { eapply walk_adds_impl; [|exact H1]. intros d Hd. exists name.
        eapply (made_under_weaken _ []); [|by rewrite app_nil_r].
        intros ->. done. }
      destruct err; [|done..].
      eapply walk_adds_seq; [exact H1' | apply IHrest].
Qed.

Lemma parse_elem_makes (ctx : context) (t : Type_) :
  forall elem w, walk_adds (made_in ctx) w (parse_elem t elem ctx w).
Proof.
  apply (Type_mut
    (fun t => forall elem w,
       walk_adds (made_in ctx) w (parse_elem t elem ctx w))
    (fun s => forall n u elem w,
       walk_adds (made_in ctx) w (parse_elem (mkType n u s) elem ctx w))
    (fun _ => True));
    try done; try (intros; apply walk_adds_none).
  - intros e IH n u elem w. simpl. eapply walk_adds_alloc. apply IH.
  - intros fs _ n u elem w. simpl. apply walk_makes.
Qed.

Lemma Parse_start (t : Type_) (conf : Value) (opts : Options) :
  ParseWithOptions t conf opts =
    match t_shape t with
    | SPtr e =>
        if IsNil conf then (mkWalk conf [], Err ErrInvalidValueKind)
        else parse_elem e [SElem] (start_context opts) (mkWalk conf [])
    | _ => (mkWalk conf [], Err ErrNotAPointer)
    end.
Proof.
  unfold ParseWithOptions, start_context, fieldName_Append.
  destruct (t_shape t); done.
Qed.

Lemma Parse_makes (t : Type_) (conf : Value) (opts : Options) :
  Forall (made_in (start_context opts))
         (w_config (ParseWithOptions t conf opts).1).
Proof.
  rewrite Parse_start.
  destruct (t_shape t); try by constructor.
  destruct (IsNil conf); [by constructor|].
  destruct (parse_elem_makes (start_context opts) elem [SElem] (mkWalk conf []))
    as (new & Hc & Hall).
  simpl in Hc. by rewrite Hc.
Qed.

(** X4.  In the list that [ParseWithOptions] returns, no descriptor has a
    recorded string yet, every descriptor carries the [AllowUnexported]
    setting and has a name of at least one segment, and with [AllOptional]
    every descriptor is optional, whatever its tag says. *)
Theorem Parse_descriptors_fresh (t : Type_) (conf : Value) (opts : Options) :
  Forall (fun d =>
            Field_Value d = "" /\
            fld_allowUnexported d = AllowUnexported opts /\
            fld_name d <> [] /\
            (AllOptional opts = true -> Field_Optional d = true))
         (w_config (ParseWithOptions t conf opts).1).
Proof.
  eapply Forall_impl; [apply Parse_makes|].
  intros d (n & Hs & Ha & Hopt & (rest & Hn) & _). simpl in *.
  repeat split; try done.
  rewrite Hn. intros E. apply app_eq_nil in E as [E _].
  by apply app_eq_nil in E as [_ E].
Qed.

Lemma Parse_descriptors_fresh_witness :
  Forall (fun d => Field_Optional d = true)
         (w_config (ParseWithOptions example_t example_conf
                      (mkOptions "" true false)).1).
Proof.
  eapply Forall_impl; [apply Parse_descriptors_fresh|].
  intros d (_ & _ & _ & H). by apply H.
Defined.

(** X5.  No descriptor that [ParseWithOptions] returns refers to a
    variable of pointer or struct kind: the walk has gone through every
    pointer and into every struct.  So the read phase converts a struct
    only as an element of a slice. *)
Theorem Parse_descriptors_are_leaves (t : Type_) (conf : Value)
    (opts : Options) :
  Forall (fun d =>
            Type_Kind (rv_type (fld_value d)) <> Ptr /\
            Type_Kind (rv_type (fld_value d)) <> Struct)
         (w_config (ParseWithOptions t conf opts).1).
Proof.
  eapply Forall_impl; [apply Parse_makes|].
  by intros d (n & _ & _ & _ & _ & Hk).
Qed.

Lemma HasPrefix_append (p x : string) : strings_HasPrefix (p +:+ x) p = true.
Proof. apply prefix_append. Qed.

Lemma ToUpper_app (a b : string) :
  strings_ToUpper (a +:+ b) = strings_ToUpper a +:+ strings_ToUpper b.
Proof. apply Map_app. Qed.

Lemma ToLower_app (a b : string) :
  strings_ToLower (a +:+ b) = strings_ToLower a +:+ strings_ToLower b.
Proof. apply Map_app. Qed.

Lemma Keys_prefixed (p n : string) (rest : fieldName) (k : string) :
  k ∈ fieldName_Keys (p :: n :: rest) -> prefixed_by p k = true.
Proof.
  rewrite Keys_elem.
  change (strings_Join (p :: n :: rest) "_")
    with (p +:+ "_" +:+ strings_Join (n :: rest) "_").
  change (strings_Join (word_form <$> p :: n :: rest) "_")
    with (word_form p +:+ "_" +:+ strings_Join (word_form <$> n :: rest) "_").
  rewrite !ToUpper_app, !ToLower_app.
  change (strings_ToUpper "_") with "_". change (strings_ToLower "_") with "_".
  intros Hk. unfold prefixed_by, key_prefixes. apply existsb_exists.
  repeat (apply elem_of_cons in Hk as [->|Hk]);
    [| | | |by apply elem_of_nil in Hk];
    rewrite <- append_assoc;
    eexists; (split; [|apply HasPrefix_append]); simpl; tauto.
Qed.

(** X6.  With a prefix in the options every descriptor has the prefix as
    the first segment of its name, followed by at least one more; the keys
    of a descriptor without a custom name all begin with the prefix, as
    written or in its word-boundary form, in upper or in lower case, and
    an underscore; a descriptor with a custom name has that name as its
    only key, without the prefix. *)
Theorem Parse_prefix_on_names_and_keys (t : Type_) (conf : Value)
    (opts : Options) :
  Prefix opts <> "" ->
  Forall (fun d =>
            (exists n rest, fld_name d = Prefix opts :: n :: rest) /\
            (fld_customName d = "" ->
             Forall (fun k => prefixed_by (Prefix opts) k = true)
                    (Field_Keys d)) /\
            (fld_customName d <> "" -> Field_Keys d = [fld_customName d]))
         (w_config (ParseWithOptions t conf opts).1).
Proof.
  intros Hp. eapply Forall_impl; [apply Parse_makes|].
  intros d (n & _ & _ & _ & (rest & Hn) & _).
  unfold start_context in Hn. simpl in Hn.
  apply String.eqb_neq in Hp. rewrite Hp in Hn. simpl in Hn.
  split; [by exists n, rest|]. unfold Field_Keys. split.
  - intros ->. simpl. rewrite Hn. apply Forall_forall. intros k Hk.
    by eapply Keys_prefixed.
  - intros Hc. apply String.eqb_neq in Hc. by rewrite Hc.
Qed.

Lemma Parse_prefix_on_names_and_keys_witness :
  Forall (fun d => exists n rest, fld_name d = "App" :: n :: rest)
         (w_config (ParseWithOptions example_t example_conf
                      (mkOptions "App" false false)).1).
Proof.
  assert (Prefix (mkOptions "App" false false) <> "") as Hp by discriminate.
  eapply Forall_impl;
    [exact (Parse_prefix_on_names_and_keys example_t example_conf _ Hp)|].
  intros d (H & _). exact H.
Defined.

(** ** The walk and the values *)

Lemma walk_same_list :
  (forall t field name tag ctx w w',
     w_config w = w_config w' ->
     w_config (doRead t field name tag ctx w).1 =
       w_config (doRead t field name tag ctx w').1 /\
     (doRead t field name tag ctx w).2 = (doRead t field name tag ctx w').2) /\
  (forall s n u field name tag ctx w w',
     w_config w = w_config w' ->
     w_config (doRead (mkType n u s) field name tag ctx w).1 =
       w_config (doRead (mkType n u s) field name tag ctx w').1 /\
     (doRead (mkType n u s) field name tag ctx w).2 =
       (doRead (mkType n u s) field name tag ctx w').2) /\
  (forall fs i value ctx w w',
     w_config w = w_config w' ->
     w_config (readStruct_from fs i value ctx w).1 =
       w_config (readStruct_from fs i value ctx w').1 /\
     (readStruct_from fs i value ctx w).2 =
       (readStruct_from fs i value ctx w').2).
Proof.
  assert (forall w w' field e, w_config w = w_config w' ->
            w_config (alloc_if_nil w field e)
              = w_config (alloc_if_nil w' field e)) as Halloc.
  { intros w w' field e E. unfold alloc_if_nil.
    by destruct (IsNil _), (IsNil _). }
  apply Type_Shape_Fields_ind;
    try (intros; simpl; split; [congruence | done]).
  - intros n u s IH. apply IH.
  - intros e IH n u field name tag ctx w w' E. simpl. apply IH.
    by apply Halloc.
  - intros fs IH n u field name tag ctx w w' E. simpl. by apply IH.
  - intros name tagstr exported ft IHt rest IHrest i value ctx w w' E.
    rewrite !readStruct_from_cons.
    destruct (tag_skip (parseTag tagstr) || negb exported).
    + destruct (negb exported && negb (ctx_allowUnexported ctx));
        [done | by apply IHrest].
    + pose proof (IHt (value ++ [SField i]) name (parseTag tagstr) ctx w w' E)
        as [Hc Ho].
      destruct (doRead ft (value ++ [SField i]) name (parseTag tagstr) ctx w)
        as [w1 err].
      destruct (doRead ft (value ++ [SField i]) name (parseTag tagstr) ctx w')
        as [w1' err'].
      simpl in Hc, Ho. subst err'.
      destruct err; [by apply IHrest | done..].
Qed.

Lemma parse_elem_same_list (ctx : context) (t : Type_) :
  forall elem w w',
    w_config w = w_config w' ->
    w_config (parse_elem t elem ctx w).1 = w_config (parse_elem t elem ctx w').1 /\
    (parse_elem t elem ctx w).2 = (parse_elem t elem ctx w').2.
Proof.
  apply (Type_mut
    (fun t => forall elem w w',
       w_config w = w_config w' ->
       w_config (parse_elem t elem ctx w).1
         = w_config (parse_elem t elem ctx w').1 /\
       (parse_elem t elem ctx w).2 = (parse_elem t elem ctx w').2)
    (fun s => forall n u elem w w',
       w_config w = w_config w' ->
       w_config (parse_elem (mkType n u s) elem ctx w).1
         = w_config (parse_elem (mkType n u s) elem ctx w').1 /\
       (parse_elem (mkType n u s) elem ctx w).2
         = (parse_elem (mkType n u s) elem ctx w').2)
    (fun _ => True));
    try done; try (by intros n u s IH; apply IH).
  - intros e IH n u elem w w' E. simpl. apply IH.
    unfold alloc_if_nil. by destruct (IsNil _), (IsNil _).
  - intros fs _ n u elem w w' E. simpl. by apply walk_same_list.
Qed.

(** X7.  The list of descriptors and the error of [ParseWithOptions]
    depend on the type of the configuration object and on the options
    only, not on the values the object holds: two objects of the same
    type, both nil or both not, give the same list and the same error. *)
Theorem Parse_list_from_type_alone (t : Type_) (conf conf' : Value)
    (opts : Options) :
  IsNil conf = IsNil conf' ->
  w_config (ParseWithOptions t conf opts).1 =
    w_config (ParseWithOptions t conf' opts).1 /\
  (ParseWithOptions t conf opts).2 = (ParseWithOptions t conf' opts).2.
Proof.
  intros Hnil. rewrite !Parse_start, <- Hnil.
  destruct (t_shape t); try done.
  destruct (IsNil conf); [done|].
  by apply parse_elem_same_list.
Qed.

Lemma Parse_list_from_type_alone_witness :
  w_config (ParseWithOptions example_t
              (VPtr (VStruct [VString "a"; VString "b"; VInt 7]))
              (mkOptions "" false false)).1 =
    [protocol_field; remoteHost_field; port_field].
Proof.
  assert (IsNil (VPtr (VStruct [VString "a"; VString "b"; VInt 7]))
            = IsNil example_conf) as Hnil by reflexivity.
  destruct (Parse_list_from_type_alone example_t _ example_conf
              (mkOptions "" false false) Hnil) as [Hl _].
  rewrite Hl. reflexivity.
Defined.

(** ** The errors of [ParseWithOptions] *)

Lemma parse_elem_outcome (ctx : context) (t : Type_) :
  forall elem w,
    walk_outcome ctx (parse_elem t elem ctx w).2 \/
    ((parse_elem t elem ctx w).2 = Err ErrInvalidValueKind /\
     w_config (parse_elem t elem ctx w).1 = w_config w).
Proof.
  apply (Type_mut
    (fun t => forall elem w,
       walk_outcome ctx (parse_elem t elem ctx w).2 \/
       ((parse_elem t elem ctx w).2 = Err ErrInvalidValueKind /\
        w_config (parse_elem t elem ctx w).1 = w_config w))
    (fun s => forall n u elem w,
       walk_outcome ctx (parse_elem (mkType n u s) elem ctx w).2 \/
       ((parse_elem (mkType n u s) elem ctx w).2 = Err ErrInvalidValueKind /\
        w_config (parse_elem (mkType n u s) elem ctx w).1 = w_config w))
    (fun _ => True));
    try done; try (by intros n u s IH; apply IH);
    try (by intros; right).
  - intros e IH n u elem w. simpl.
    destruct (IH (elem ++ [SElem]) (alloc_if_nil w elem e)) as [H|[H1 H2]];
      [by left | right]. split; [done|].
    rewrite H2. unfold alloc_if_nil. by destruct (IsNil _).
  - intros fs _ n u elem w. simpl. left. unfold readStruct.
    by destruct (readStruct_from_sound fs 0 elem ctx w) as (_ & _ & _ & _ & H).
Qed.

Lemma Kind_Ptr_shape (t : Type_) :
  Type_Kind t = Ptr <-> exists e, t_shape t = SPtr e.
Proof.
  unfold Type_Kind. split.
  - destruct (t_shape t) as [|[]|[]|[]| | | | | |[]]; try done. eauto.
  - by intros [e ->].
Qed.

(** X8.  Which of its errors [ParseWithOptions] returns.  It returns
    [ErrNotAPointer] exactly when [conf] is not of pointer kind, and then
    it has touched nothing.  It returns [ErrInvalidValueKind] exactly when
    [conf] is a pointer that is nil or whose pointers do not lead to a
    struct.  With either of the two the list is empty.
    [ErrUnexportedField] is returned only when unexported fields are not
    allowed. *)
Theorem Parse_error_conditions (t : Type_) (conf : Value) (opts : Options) :
  let r := ParseWithOptions t conf opts in
  (r.2 = Err ErrNotAPointer <-> Type_Kind t <> Ptr) /\
  (Type_Kind t <> Ptr -> r.1 = mkWalk conf []) /\
  (r.2 = Err ErrInvalidValueKind <->
   exists e, t_shape t = SPtr e /\
             (IsNil conf = true \/ ends_in_struct e = false)) /\
  (r.2 = Err ErrNotAPointer \/ r.2 = Err ErrInvalidValueKind ->
   w_config r.1 = []) /\
  (r.2 = Err ErrUnexportedField -> AllowUnexported opts = false).
Proof.
  intros r. unfold r. rewrite Parse_start.
  pose proof (Kind_Ptr_shape t) as HK.
  destruct (t_shape t) as [| | | | |e| | | |] eqn:Es;
    try (assert (Type_Kind t <> Ptr) as Hk
           by (intros E; apply HK in E as [e' E]; done);
         repeat split; auto; try done; by intros (e' & E & _)).
  assert (Type_Kind t = Ptr) as Hk by (apply HK; eauto).
  destruct (IsNil conf).
  { repeat split; auto; try done. intros _. exists e. auto. }
  pose proof (parse_elem_outcome (start_context opts) e [SElem] (mkWalk conf []))
    as Hout.
  pose proof (parse_elem_kind (start_context opts) e [SElem] (mkWalk conf []))
    as Hkind.
  destruct (parse_elem e [SElem] (start_context opts) (mkWalk conf []))
    as [w out]. simpl in *.
  split; [split; [|done]|].
  { destruct Hout as [[->|[-> _]]|[-> _]]; done. }
  split; [done|]. split.
  { rewrite Hkind. split.
    - intros He. exists e. auto.
    - by intros (e' & [= <-] & [?|?]). }
  split.
  { destruct Hout as [[->|[-> _]]|[-> Hc]]; by intros [?|?]. }
  destruct Hout as [[->|[-> Ha]]|[-> _]]; done.
Qed.

Lemma Parse_error_conditions_witness :
  ParseWithOptions int_t (VInt 3) (mkOptions "" false false) =
    (mkWalk (VInt 3) [], Err ErrNotAPointer) /\
  (ParseWithOptions (mkType "" false (SPtr int_t)) (VPtr (VInt 3))
     (mkOptions "" false false)).2 = Err ErrInvalidValueKind.
Proof.
  destruct (Parse_error_conditions int_t (VInt 3) (mkOptions "" false false))
    as (Hnp & Hw & _).
  destruct (Parse_error_conditions (mkType "" false (SPtr int_t))
              (VPtr (VInt 3)) (mkOptions "" false false))
    as (_ & _ & Hkind & _).
  assert (Type_Kind int_t <> Ptr) as Hk by discriminate.
  split.
  - apply Hnp in Hk as Herr. apply Hw in Hk.
    destruct (ParseWithOptions int_t (VInt 3) (mkOptions "" false false))
      as [w out]. simpl in *. by subst.
  - apply Hkind. exists int_t. split; [reflexivity | by right].
Defined.

(** ** What the read phase does to the descriptors *)

Lemma set_strValue_same (fld : Field) : set_strValue fld (fld_strValue fld) = fld.
Proof. by destruct fld. Qed.

Lemma readValue_set_strValue (R : GoRuntime) (fld : Field) (s : string) :
  Field_readValue (set_strValue fld s) = Field_readValue fld.
Proof. reflexivity. Qed.

Lemma len_zero (s : string) : (len s =? 0) = String.eqb s "".
Proof. by destruct s. Qed.

Lemma readValue_ok_empty (R : GoRuntime) (fld : Field) :
  Field_readValue fld = ok "" -> fld_optional fld = true.
Proof.
  unfold Field_readValue.
  destruct (String.eqb (readValue_loop (Field_Keys fld) "") "") eqn:E1; simpl.
  - destruct (String.eqb (fld_defaultVal fld) "") eqn:E2; simpl.
    + by destruct (fld_optional fld).
    + intros H. injection H as H. by rewrite H in E2.
  - intros H. injection H as H. by rewrite H in E1.
Qed.

Lemma setField_converts (R : GoRuntime) (fld : Field) (t : Type_) (v : Value)
    (str : string) :
  Field_readValue fld = ok str ->
  (len str =? 0) && fld_optional fld = false ->
  exists v' out, Field_setField fld t v = (set_strValue fld str, v', out).
Proof.
  intros Hr Hc. unfold Field_setField. rewrite Hr, Hc.
  set (conv := if _ : bool then _ else _).
  destruct conv as [v' out]. eauto.
Qed.

Lemma setField_skips (R : GoRuntime) (fld : Field) (t : Type_) (v : Value)
    (str : string) :
  Field_readValue fld = ok str ->
  (len str =? 0) && fld_optional fld = true ->
  Field_setField fld t v = (fld, v, Nil).
Proof. intros Hr Hc. unfold Field_setField. by rewrite Hr, Hc. Qed.

(** What one call of [setValue] leaves in the descriptor. *)
Lemma setValue_descriptor (R : GoRuntime) (fld : Field) (root : Value) :
  let r := Field_setValue fld root in
  (r.1.1 = fld /\
   (r.2 = Nil -> Field_readValue fld = ok "" /\ fld_optional fld = true)) \/
  (exists str,
     Field_readValue fld = ok str /\ r.1.1 = set_strValue fld str /\
     (str = "" -> fld_optional fld = false)).
Proof.
  unfold Field_setValue.
  destruct (Field_readValue fld) as [str|err] eqn:Er.
  - destruct ((len str =? 0) && fld_optional fld) eqn:E.
    + rewrite (setField_skips R fld _ _ str Er E). simpl. left.
      rewrite len_zero in E. apply andb_true_iff in E as [E1 E2].
      apply String.eqb_eq in E1. by subst.
    + destruct (setField_converts R fld (rv_type (fld_value fld))
                  (load root (rv_path (fld_value fld))) str Er E)
        as (v' & out & ->).
      simpl. right. exists str. split; [done|]. split; [done|].
      intros ->. simpl in E. by destruct (fld_optional fld).
  - unfold Field_setField. rewrite Er. simpl. left. by split.
Qed.

(** X9.  [Read] changes nothing in a descriptor but the string it records:
    whatever the outcome, the list it leaves has the same length and the
    same descriptors in the same order, with their names, targets, custom
    names, defaults, notes and flags, and so with their keys. *)
Theorem Read_changes_recorded_strings_only (R : GoRuntime) (cinfo : ConfInfo)
    (root : Value) :
  Forall2 (fun d d' => d' = set_strValue d (fld_strValue d') /\
                      Field_Keys d' = Field_Keys d)
          cinfo (ConfInfo_Read cinfo root).1.1.
Proof.
  revert root. induction cinfo as [|d cinfo IH]; intros root; simpl;
    [constructor|].
  pose proof (setValue_descriptor R d root) as Hd.
  destruct (Field_setValue d root) as [[d' root'] out]. simpl in Hd.
  assert (d' = set_strValue d (fld_strValue d') /\ Field_Keys d' = Field_Keys d)
    as Hd'.
  { destruct Hd as [[-> _]|(str & _ & -> & _)].
    - by rewrite set_strValue_same.
    - done. }
  assert (Forall2 (fun d d' => d' = set_strValue d (fld_strValue d') /\
                              Field_Keys d' = Field_Keys d) cinfo cinfo)
    as Hsame.
  { apply Forall2_same_length_lookup_2; [done|].
    intros i x y Hx Hy. rewrite Hx in Hy. injection Hy as <-.
    by rewrite set_strValue_same. }
  destruct out; simpl; [|by constructor..].
  specialize (IH root').
  destruct (ConfInfo_Read cinfo root') as [[rest' root''] out'].
  by constructor.
Qed.

(** X10.  When [Read] returns no error, every descriptor it leaves has a
    resolved string (from the environment or from the default) and, when
    that string is not empty, records exactly it; the string is empty only
    for an optional descriptor, so every descriptor that is not optional
    records a non-empty string. *)
Theorem Read_success_records (R : GoRuntime) (cinfo cinfo' : ConfInfo)
    (root root' : Value) :
  ConfInfo_Read cinfo root = (cinfo', root', Nil) ->
  Forall (fun d' =>
            (exists s, Field_readValue d' = ok s /\
                       (s = "" -> fld_optional d' = true) /\
                       (s <> "" -> Field_Value d' = s)) /\
            (fld_optional d' = false -> Field_Value d' <> ""))
         cinfo'.
Proof.
  revert cinfo' root. induction cinfo as [|d cinfo IH]; intros cinfo' root;
    simpl.
  - intros H. injection H as <- _. constructor.
  - pose proof (setValue_descriptor R d root) as Hd.
    destruct (Field_setValue d root) as [[d' root1] out]. simpl in Hd.
    destruct out; [|done..].
    destruct (ConfInfo_Read cinfo root1) as [[rest' root''] out'] eqn:Hrest.
    intros H. injection H as <- <- ->. constructor; [|by eapply IH].
    destruct Hd as [[-> H]|(str & Hr & -> & He)].
    + destruct (H eq_refl) as [Hr Ho]. split; [|congruence].
      exists "". by repeat split.
    + assert (str = "" -> fld_optional d = true) as Ho.
      { intros ->. by eapply readValue_ok_empty. }
      split.
      * exists str. rewrite readValue_set_strValue. repeat split; try done.
      * simpl. intros Hno ->. specialize (Ho eq_refl). congruence.
Qed.

Lemma Read_success_records_witness :
  Forall (fun d' => Field_Value d' <> "")
    (@ConfInfo_Read (sample_runtime example_environ)
       [protocol_field; remoteHost_field; port_field] example_conf).1.1.
Proof.
  assert (@ConfInfo_Read (sample_runtime example_environ)
            [protocol_field; remoteHost_field; port_field] example_conf =
          ([set_strValue protocol_field "https";
            set_strValue remoteHost_field "localhost";
            set_strValue port_field "80"],
           VPtr (VStruct [VString "https"; VString "localhost"; VInt 80]), Nil))
    as Hread by (vm_compute; reflexivity).
  pose proof (Read_success_records (sample_runtime example_environ)
                _ _ _ _ Hread) as Hall.
  rewrite Hread. cbn [fst].
  apply Forall_cons in Hall as [[_ H1] Hall].
  apply Forall_cons in Hall as [[_ H2] Hall].
  apply Forall_cons in Hall as [[_ H3] _].
  repeat constructor; [apply H1 | apply H2 | apply H3]; reflexivity.
Defined.

(** ** Nothing set, nothing changed *)

Lemma setValue_unset (R : GoRuntime) (fld : Field) (root : Value) :
  fld_optional fld = true -> fld_defaultVal fld = "" ->
  Forall (fun key => os_Getenv key = "") (Field_Keys fld) ->
  Field_setValue fld root = (fld, root, Nil).
Proof.
  intros Hopt Hdef Hunset.
  assert (Field_readValue fld = ok "") as Hr.
  { rewrite readValue_find, find_none_Forall.
    - by rewrite Hdef, Hopt.
    - eapply Forall_impl; [exact Hunset|].
      intros key E. unfold is_set. by rewrite E. }
  unfold Field_setValue.
  rewrite (setField_skips R fld _ _ "" Hr) by (by rewrite Hopt).
  by rewrite store_load_id.
Qed.

Lemma Read_unset (R : GoRuntime) (cinfo : ConfInfo) (root : Value) :
  Forall (fun d =>
            fld_optional d = true /\ fld_defaultVal d = "" /\
            Forall (fun key => os_Getenv key = "") (Field_Keys d)) cinfo ->
  ConfInfo_Read cinfo root = (cinfo, root, Nil).
Proof.
  induction 1 as [|d cinfo (Hopt & Hdef & Hunset) _ IH]; simpl; [done|].
  by rewrite setValue_unset, IH.
Qed.

(** X11.  When every descriptor of a list is optional, has no default and
    has none of its keys set to a non-empty string, [Read] returns no
    error and leaves the list and the configuration object exactly as
    they were.  So [InitWithOptions] with [AllOptional], on a struct
    without defaults and in such an environment, returns no error and
    hands back the object as the walk left it. *)
Theorem Read_nothing_set (R : GoRuntime) :
  (forall cinfo root,
     Forall (fun d =>
               fld_optional d = true /\ fld_defaultVal d = "" /\
               Forall (fun key => os_Getenv key = "") (Field_Keys d)) cinfo ->
     ConfInfo_Read cinfo root = (cinfo, root, Nil)) /\
  (forall t conf opts,
     AllOptional opts = true ->
     (ParseWithOptions t conf opts).2 = Nil ->
     Forall (fun d =>
               fld_defaultVal d = "" /\
               Forall (fun key => os_Getenv key = "") (Field_Keys d))
            (w_config (ParseWithOptions t conf opts).1) ->
     InitWithOptions t conf opts =
       (w_config (ParseWithOptions t conf opts).1,
        w_root (ParseWithOptions t conf opts).1, Nil)).
Proof.
  split; [apply Read_unset|].
  intros t conf opts Hall Hnil Hunset. unfold InitWithOptions.
  pose proof (Parse_makes t conf opts) as Hmade.
  destruct (ParseWithOptions t conf opts) as [w out]. simpl in *. subst out.
  apply Read_unset. rewrite Forall_forall in Hmade, Hunset.
  apply Forall_forall. intros d Hd.
  destruct (Hmade d Hd) as (n & _ & _ & Hopt & _).
  destruct (Hunset d Hd) as [Hdef Hkeys]. simpl in Hopt. auto.
Qed.

Lemma Read_nothing_set_witness :
  @ConfInfo_Read (sample_runtime ∅) [proxy_field] example_conf =
    ([proxy_field], example_conf, Nil).
Proof.
  apply (Read_nothing_set (sample_runtime ∅)).
  constructor; [|constructor].
  split; [reflexivity|]. split; [reflexivity|].
  vm_compute. repeat constructor.
Defined.

(** ** Slices *)

Section Slices.
Context (R : GoRuntime).

Lemma setSlice_loop_ok (elType : Type_) (tokens : list string)
    (els slice : list Value) :
  Forall2 (fun tok el => parseValue elType (zero elType) tok = (el, Nil))
          tokens els ->
  setSlice_loop elType tokens slice = (slice ++ els, Nil).
Proof.
  intros H. revert slice.
  induction H as [|tok el tokens els Htok _ IH]; intros slice; simpl.
  - by rewrite app_nil_r.
  - rewrite Htok, IH. by rewrite <- app_assoc.
Qed.

Lemma setSlice_loop_fails (elType : Type_) (tokens : list string)
    (slice : list Value) :
  Exists (fun tok => (parseValue elType (zero elType) tok).2 <> Nil) tokens ->
  (setSlice_loop elType tokens slice).2 <> Nil.
Proof.
  intros H. revert slice.
  induction tokens as [|tok tokens IH]; intros slice; simpl.
  - by apply Exists_nil in H.
  - destruct (parseValue elType (zero elType) tok) as [el out] eqn:E.
    destruct out; try done.
    apply Exists_cons in H as [H|H]; [by rewrite E in H | by apply IH].
Qed.

End Slices.

(** X12.  [setSliceField] writes the slice in one piece.  When every token
    converts, the variable becomes a slice that holds as many zero
    elements as the variable had elements before, followed by the
    converted tokens in their order, and the call returns what the
    tokenizer reports at its end.  When some token does not convert, the
    variable is left as it was and the call fails. *)
Theorem setSliceField_all_or_nothing (R : GoRuntime) (elType : Type_)
    (value : Value) (str : string) (tokens : list string)
    (err : option error) :
  sliceTokenizer str = (tokens, err) ->
  (forall els,
     Forall2 (fun tok el => parseValue elType (zero elType) tok = (el, Nil))
             tokens els ->
     Field_setSliceField elType value str =
       (VSlice (replicate (Value_Len value) (zero elType) ++ els),
        match err with None => Nil | Some e => Err e end)) /\
  (Exists (fun tok => (parseValue elType (zero elType) tok).2 <> Nil) tokens ->
   (Field_setSliceField elType value str).1 = value /\
   (Field_setSliceField elType value str).2 <> Nil).
Proof.
  intros Htok. unfold Field_setSliceField. rewrite Htok. split.
  - intros els Hels. by rewrite (setSlice_loop_ok R _ _ _ _ Hels).
  - intros Hbad.
    pose proof (setSlice_loop_fails R elType tokens
                  (replicate (Value_Len value) (zero elType)) Hbad) as Hf.
    destruct (setSlice_loop _ _ _) as [slice out]. simpl in Hf.
    by destruct out.
Qed.

Lemma setSliceField_all_or_nothing_witness :
  @Field_setSliceField (sample_runtime ∅) int_t (VSlice [VInt 9]) "1,2" =
    (VSlice [VInt 0; VInt 1; VInt 2], Nil) /\
  (@Field_setSliceField (sample_runtime ∅) int_t (VSlice [VInt 9]) "1,x").1 =
    VSlice [VInt 9].
Proof.
  assert (@sliceTokenizer (sample_runtime ∅) "1,2" = (["1"; "2"], None))
    as H1 by (vm_compute; reflexivity).
  assert (@sliceTokenizer (sample_runtime ∅) "1,x" = (["1"; "x"], None))
    as H2 by (vm_compute; reflexivity).
  split.
  - destruct (setSliceField_all_or_nothing (sample_runtime ∅) int_t
                (VSlice [VInt 9]) _ _ _ H1) as [Hok _].
    rewrite (Hok [VInt 1; VInt 2]); [reflexivity|].
    repeat constructor.
  - destruct (setSliceField_all_or_nothing (sample_runtime ∅) int_t
                (VSlice [VInt 9]) _ _ _ H2) as [_ Hbad].
    apply Hbad. apply Exists_cons_tl, Exists_cons_hd.
    vm_compute. discriminate.
Defined.

(** ** Kinds without a conversion rule *)

(** X13.  A map cannot be read.  For a variable of a map type without
    [Unmarshal], [parseValue] puts a fresh empty map into the variable and
    then fails with the error for an unsupported kind; so [setField], once
    a string is resolved for such a field, records the string, leaves the
    empty map in place of whatever the map held, and fails. *)
Theorem map_is_emptied_and_refused (R : GoRuntime) (n : string) (u : bool)
    (key elem : Type_) :
  let t := mkType n u (SMap key elem) in
  isUnmarshaler t = false ->
  isDurationField t = false ->
  (forall v str,
     parseValue t v str =
       (VMap [], Err (errorString "envconfig: kind map not supported"))) /\
  (forall fld v str,
     Field_readValue fld = ok str ->
     (len str =? 0) && fld_optional fld = false ->
     Field_setField fld t v =
       (set_strValue fld str, VMap [],
        Err (errorString "envconfig: kind map not supported"))).
Proof.
  intros t Hu Hd.
  assert (forall v str,
            parseValue t v str =
              (VMap [], Err (errorString "envconfig: kind map not supported")))
    as Hp.
  { intros v str. unfold t in *.
    cbn -[isUnmarshaler isDurationField]. by rewrite Hu, Hd. }
  split; [done|].
  intros fld v str Hr Hc. unfold Field_setField. rewrite Hr, Hc, Hu.
  cbv zeta.
  assert (bool_decide (Type_Kind t = Slice) = false) as -> by done.
  cbn [andb]. by rewrite Hp.
Qed.

Lemma map_is_emptied_and_refused_witness :
  @parseValue (sample_runtime ∅)
     (mkType "" false (SMap string_t int_t))
     (VMap [(VString "a", VInt 1)]) "a:2" =
    (VMap [], Err (errorString "envconfig: kind map not supported")).
Proof.
  apply (map_is_emptied_and_refused (sample_runtime ∅) "" false string_t int_t);
    reflexivity.
Defined.

(** X14.  A slice cannot be an element of a slice or a field of a struct
    token: for a variable of a slice type without [Unmarshal], a byte
    slice included, [parseValue] fails with the error for an unsupported
    kind and leaves the variable as it was; so [setSliceField] on a slice
    of such slices fails at its first token. *)
Theorem nested_slice_refused (R : GoRuntime) (n : string) (u : bool)
    (elem : Type_) :
  let t := mkType n u (SSlice elem) in
  isUnmarshaler t = false ->
  isDurationField t = false ->
  (forall v str,
     parseValue t v str =
       (v, Err (errorString "envconfig: kind slice not supported"))) /\
  (forall value str tok rest err,
     sliceTokenizer str = (tok :: rest, err) ->
     Field_setSliceField t value str =
       (value, Err (errorString "envconfig: kind slice not supported"))).
Proof.
  intros t Hu Hd.
  assert (forall v str,
            parseValue t v str =
              (v, Err (errorString "envconfig: kind slice not supported")))
    as Hp.
  { intros v str. unfold t in *.
    cbn -[isUnmarshaler isDurationField]. by rewrite Hu, Hd. }
  split; [done|].
  intros value str tok rest err Htok.
  unfold Field_setSliceField. rewrite Htok. cbn [setSlice_loop].
  by rewrite Hp.
Qed.

Lemma nested_slice_refused_witness :
  @Field_setSliceField (sample_runtime ∅)
     (mkType "" false (SSlice string_t)) VNil "a,b" =
    (VNil, Err (errorString "envconfig: kind slice not supported")).
Proof.
  destruct (nested_slice_refused (sample_runtime ∅) "" false string_t
              eq_refl eq_refl) as [_ H].
  apply (H VNil "a,b" "a" ["b"] None). vm_compute. reflexivity.
Defined.

(** ** Integers *)

Lemma wrap_int_range (w : width) (n : Z) :
  - 2 ^ (bits w - 1) <= wrap_int w n < 2 ^ (bits w - 1) /\
  (wrap_int w n - n) mod 2 ^ bits w = 0 /\
  (- 2 ^ (bits w - 1) <= n < 2 ^ (bits w - 1) -> wrap_int w n = n).
Proof.
  unfold wrap_int.
  assert (exists h, 0 < h /\ 2 ^ bits w = 2 * h /\ 2 ^ (bits w - 1) = h)
    as (h & Hh & -> & ->).
  { destruct w; simpl; eexists; (split; [|split; reflexivity]); lia. }
  replace (2 * h / 2) with h by (rewrite Z.mul_comm, Z.div_mul; lia).
  pose proof (Z.mod_pos_bound (n + h) (2 * h) ltac:(lia)) as Hb.
  split; [lia|]. split.
  - rewrite (Z.mod_eq (n + h) (2 * h)) by lia.
    replace (n + h - 2 * h * ((n + h) / (2 * h)) - h - n)
      with (- ((n + h) / (2 * h)) * (2 * h)) by lia.
    apply Z.mod_mul. lia.
  - intros Hn. rewrite Z.mod_small by lia. lia.
Qed.

Lemma wrap_uint_range (w : width) (n : Z) :
  0 <= wrap_uint w n < 2 ^ bits w /\
  (wrap_uint w n - n) mod 2 ^ bits w = 0 /\
  (0 <= n < 2 ^ bits w -> wrap_uint w n = n).
Proof.
  unfold wrap_uint.
  assert (0 < 2 ^ bits w) as Hm by (destruct w; simpl; lia).
  pose proof (Z.mod_pos_bound n (2 ^ bits w) Hm) as Hb.
  split; [lia|]. split.
  - rewrite (Z.mod_eq n (2 ^ bits w)) by lia.
    replace (n - 2 ^ bits w * (n / 2 ^ bits w) - n)
      with (- (n / 2 ^ bits w) * 2 ^ bits w) by lia.
    apply Z.mod_mul. lia.
  - intros Hn. by rewrite Z.mod_small.
Qed.

(** X15.  An integer is parsed at 64 bits and stored at the width of the
    field without a range check.  For a signed or unsigned integer field
    without [Unmarshal] and other than [time.Duration], whenever [strconv]
    accepts the string, the conversion succeeds and stores the number
    reduced to the width of the field: a number within the range of the
    width is stored as it is, any other is stored as the number of the
    range that differs from it by a multiple of two to the width. *)
Theorem integers_wrap_to_width (R : GoRuntime) (name : string) (u : bool)
    (w : width) (v : Value) (str : string) (n : Z) :
  (isUnmarshaler (mkType name u (SInt w)) = false ->
   isDurationField (mkType name u (SInt w)) = false ->
   strconv_ParseInt str = ok n ->
   parseValue (mkType name u (SInt w)) v str = (VInt (wrap_int w n), Nil) /\
   - 2 ^ (bits w - 1) <= wrap_int w n < 2 ^ (bits w - 1) /\
   (wrap_int w n - n) mod 2 ^ bits w = 0 /\
   (- 2 ^ (bits w - 1) <= n < 2 ^ (bits w - 1) -> wrap_int w n = n)) /\
  (isUnmarshaler (mkType name u (SUint w)) = false ->
   isDurationField (mkType name u (SUint w)) = false ->
   strconv_ParseUint str = ok n ->
   parseValue (mkType name u (SUint w)) v str = (VUint (wrap_uint w n), Nil) /\
   0 <= wrap_uint w n < 2 ^ bits w /\
   (wrap_uint w n - n) mod 2 ^ bits w = 0 /\
   (0 <= n < 2 ^ bits w -> wrap_uint w n = n)).
Proof.
  split; intros Hu Hd Hp.
  - split; [|apply wrap_int_range].
    cbn -[isUnmarshaler isDurationField wrap_int]. rewrite Hu, Hd.
    unfold parseIntValue. by rewrite Hp.
  - split; [|apply wrap_uint_range].
    cbn -[isUnmarshaler isDurationField wrap_uint]. rewrite Hu, Hd.
    unfold parseUintValue. by rewrite Hp.
Qed.

Lemma integers_wrap_to_width_witness :
  @parseValue (sample_runtime ∅) (mkType "int8" false (SInt W8)) (VInt 0) "300"
    = (VInt 44, Nil) /\
  @parseValue (sample_runtime ∅) (mkType "uint8" false (SUint W8)) (VUint 0) "256"
    = (VUint 0, Nil).
Proof.
  destruct (integers_wrap_to_width (sample_runtime ∅) "int8" false W8
              (VInt 0) "300" 300) as [Hi _].
  destruct (integers_wrap_to_width (sample_runtime ∅) "uint8" false W8
              (VUint 0) "256" 256) as [_ Hu].
  split.
  - destruct (Hi eq_refl eq_refl) as [H _]; [vm_compute; reflexivity|].
    rewrite H. reflexivity.
  - destruct (Hu eq_refl eq_refl) as [H _]; [vm_compute; reflexivity|].
    rewrite H. reflexivity.
Defined.

(** ** Struct tokens, piece by piece *)

Lemma count_rune_app (c : rune) (a b : string) :
  count_rune c (a +:+ b) = (count_rune c a + count_rune c b)%nat.
Proof.
  induction a as [|r a IH]; string_simpl; [done|]. simpl. rewrite IH. lia.
Qed.

Lemma split_from_length (s : string) (sep : rune) (cur : string) :
  length (split_from s sep cur) = S (count_rune sep s).
Proof.
  revert cur. induction s as [|r s IH]; intros cur; simpl; [done|].
  destruct (Ascii.eqb r sep); simpl; by rewrite IH.
Qed.

Lemma split_from_clean (s : string) (sep : rune) (cur : string) :
  count_rune sep cur = 0%nat ->
  Forall (fun tok => count_rune sep tok = 0%nat) (split_from s sep cur).
Proof.
  revert cur. induction s as [|r s IH]; intros cur Hcur; simpl.
  - by repeat constructor.
  - destruct (Ascii.eqb r sep) eqn:E.
    + constructor; [done|]. by apply IH.
    + apply IH. rewrite count_rune_app. simpl. rewrite E. lia.
Qed.

Lemma count_rune_substring (c : rune) (n m : nat) (s : string) :
  (count_rune c (String.substring n m s) <= count_rune c s)%nat.
Proof.
  revert n m. induction s as [|r s IH]; intros n m.
  - by destruct n, m.
  - destruct n as [|n].
    + destruct m as [|m]; simpl; [lia|]. specialize (IH 0%nat m). lia.
    + simpl. specialize (IH n m). lia.
Qed.

Lemma slice_expr_inner (token : string) :
  2 <= len token ->
  slice_expr token 1 (len token - 1) =
    Some (String.substring 1 (String.length token - 2) token).
Proof.
  intros Hlen. unfold slice_expr.
  destruct (Z.leb_spec 1 (len token - 1)); [|lia].
  destruct (Z.leb_spec (len token - 1) (len token)); [|lia].
  simpl. do 2 f_equal. unfold len in *. lia.
Qed.

Section Pieces.
Context (R : GoRuntime).

Lemma parseStruct_fields_cons (n tg : string) (ex : bool) (ft : Type_)
    (rest : Fields) (i : nat) (vs : list Value) (tokens : list string) :
  parseStruct_fields (FCons n tg ex ft rest) i vs tokens =
    match tokens !! i with
    | None => (vs, Panic "index out of range")
    | Some t =>
        let '(x, out) := parseValue ft (Value_Field vs i ft) t in
        match out with
        | Nil => parseStruct_fields rest (S i) (<[i := x]> vs) tokens
        | _ => (<[i := x]> vs, out)
        end
    end.
Proof. reflexivity. Qed.

Lemma parseStruct_mismatch (fs : Fields) (value : Value) (token : string) :
  2 <= len token ->
  S (count_rune "," (String.substring 1 (String.length token - 2) token))
    <> NumField fs ->
  Field_parseStruct fs value token =
    (value,
     Err (struct_token_mismatch
            (S (count_rune ","
                  (String.substring 1 (String.length token - 2) token)))
            (NumField fs))).
Proof.
  intros Hlen Hne. unfold Field_parseStruct, parseStruct_body.
  rewrite (slice_expr_inner token Hlen). unfold strings_Split.
  rewrite split_from_length.
  destruct (Nat.eqb_spec
              (S (count_rune "," (String.substring 1 (String.length token - 2) token)))
              (NumField fs)); done.
Qed.

Lemma wide_struct_token (t : Type_) (v : Value) (tok : string) :
  is_wide_struct t = true -> count_rune "," tok = 0%nat ->
  (parseValue t v tok).2 <> Nil.
Proof.
  destruct t as [n u s]. unfold is_wide_struct. simpl t_shape.
  destruct s as [| | | | | | | |fs|]; try done.
  intros Hw Hc.
  apply andb_true_iff in Hw as [Hw Hd]. apply andb_true_iff in Hw as [Hn Hu].
  apply negb_true_iff in Hd, Hu. apply Nat.leb_le in Hn.
  rewrite (parseValue_struct R n u fs v tok Hu Hd).
  destruct (Z.lt_ge_cases (len tok) 2) as [Hshort|Hlong].
  - unfold Field_parseStruct, parseStruct_body.
    by rewrite (slice_expr_short tok Hshort).
  - rewrite parseStruct_mismatch; [done..|].
    pose proof (count_rune_substring "," 1 (String.length tok - 2) tok). lia.
Qed.

Lemma wide_struct_loop (fs : Fields) (i : nat) (vs : list Value)
    (tokens : list string) :
  has_wide_struct fs = true ->
  Forall (fun tok => count_rune "," tok = 0%nat) tokens ->
  (parseStruct_fields fs i vs tokens).2 <> Nil.
Proof.
  intros Hw Hclean. revert i vs.
  induction fs as [|n tg ex ft rest IH]; intros i vs; [done|].
  rewrite parseStruct_fields_cons.
  destruct (tokens !! i) as [tok|] eqn:Ei; [|done].
  assert (count_rune "," tok = 0%nat) as Hc.
  { rewrite Forall_forall in Hclean. apply Hclean.
    by eapply list_elem_of_lookup_2. }
  pose proof (wide_struct_token ft (Value_Field vs i ft) tok) as Hft.
  destruct (parseValue ft (Value_Field vs i ft) tok) as [x out].
  simpl in Hw. destruct out; try done.
  apply orb_true_iff in Hw as [Hw|Hw]; [|by apply IH].
  by destruct (Hft Hw Hc).
Qed.

End Pieces.

(** X16.  [parseStruct] counts the pieces of a token before it converts
    any: for a token of two bytes or more, when one plus the number of
    commas between its first and its last byte is not the number of fields
    of the struct, it fails with the error that names both numbers and
    leaves the variable as it was. *)
Theorem parseStruct_counts_pieces (R : GoRuntime) (fs : Fields)
    (value : Value) (token : string) :
  2 <= len token ->
  S (count_rune "," (String.substring 1 (String.length token - 2) token))
    <> NumField fs ->
  Field_parseStruct fs value token =
    (value,
     Err (struct_token_mismatch
            (S (count_rune ","
                  (String.substring 1 (String.length token - 2) token)))
            (NumField fs))).
Proof. apply parseStruct_mismatch. Qed.

Lemma parseStruct_counts_pieces_witness :
  @Field_parseStruct (sample_runtime ∅)
     (FCons "X" "" true int_t (FCons "Y" "" true int_t FNil))
     (VStruct [VInt 0; VInt 0]) "(1,2,3)" =
    (VStruct [VInt 0; VInt 0],
     Err (errorString "envconfig: struct token has 3 fields but struct has 2")).
Proof.
  apply (parseStruct_counts_pieces (sample_runtime ∅)
           (FCons "X" "" true int_t (FCons "Y" "" true int_t FNil))
           (VStruct [VInt 0; VInt 0]) "(1,2,3)").
  - vm_compute. discriminate.
  - vm_compute. discriminate.
Defined.

(** X17.  A token is cut at every comma, so no piece of it holds a comma,
    and a struct of two or more fields needs one: a struct that has a
    field of such a struct type can never be read from a token.  Whatever
    the token, [parseStruct] on it panics or fails. *)
Theorem struct_in_struct_never_read (R : GoRuntime) (fs : Fields)
    (value : Value) (token : string) :
  has_wide_struct fs = true ->
  (Field_parseStruct fs value token).2 <> Nil.
Proof.
  intros Hw. unfold Field_parseStruct, parseStruct_body.
  destruct (slice_expr token 1 (len token - 1)) as [inner|]; [|done].
  destruct (negb _); [done|].
  pose proof (wide_struct_loop R fs 0 (struct_values value)
                (strings_Split inner ",") Hw
                (split_from_clean inner "," "" eq_refl)) as Hloop.
  by destruct (parseStruct_fields fs 0 _ _) as [vs out].
Qed.

Lemma struct_in_struct_never_read_witness :
  (@Field_parseStruct (sample_runtime ∅)
     (FCons "P" "" true point_t (FCons "N" "" true int_t FNil))
     (VStruct [VStruct [VInt 0; VInt 0]; VInt 0]) "((1,2),3)").2 <> Nil.
Proof.
  apply (struct_in_struct_never_read (sample_runtime ∅)). reflexivity.
Defined.

(** ** The walk only allocates *)

Lemma keeps_refl (r : Value) : keeps r r.
Proof. by intros q _. Qed.

Lemma keeps_trans (r1 r2 r3 : Value) : keeps r1 r2 -> keeps r2 r3 -> keeps r1 r3.
Proof.
  intros H12 H23 q Hq. rewrite <- (H12 q Hq). apply H23.
  by rewrite (H12 q Hq).
Qed.

Lemma load_nil (q : list step) : load VNil q = VNil.
Proof. by destruct q as [|[]]. Qed.

Lemma store_at_nil_keeps (r : Value) (p : list step) (x : Value) :
  load r p = VNil -> keeps r (store r p x).
Proof.
  revert r. induction p as [|st p IH]; intros r Hnil q Hq.
  - simpl in Hnil. subst r. by rewrite load_nil in Hq.
  - destruct st as [i|]; simpl in *.
    + destruct r as [| | | | | | | | |vs]; try done.
      destruct (vs !! i) as [y|] eqn:Ei; [|done].
      destruct q as [|[j|] q]; try done. simpl in *.
      destruct (decide (j = i)) as [->|Hne].
      * rewrite Ei in Hq. rewrite Ei.
        rewrite list_lookup_insert_eq by by eapply lookup_lt_Some.
        by apply IH.
      * by rewrite list_lookup_insert_ne.
    + destruct r as [| | | | | |y| | |]; try done.
      destruct q as [|[j|] q]; try done. simpl in *. by apply IH.
Qed.

Lemma alloc_keeps (w : walk) (field : list step) (e : Type_) :
  keeps (w_root w) (w_root (alloc_if_nil w field e)).
Proof.
  unfold alloc_if_nil. destruct (IsNil (load (w_root w) field)) eqn:E.
  - simpl. apply store_at_nil_keeps. by destruct (load (w_root w) field).
  - apply keeps_refl.
Qed.

Lemma walk_keeps :
  (forall t field name tag ctx w,
     keeps (w_root w) (w_root (doRead t field name tag ctx w).1)) /\
  (forall s n u field name tag ctx w,
     keeps (w_root w) (w_root (doRead (mkType n u s) field name tag ctx w).1)) /\
  (forall fs i value ctx w,
     keeps (w_root w) (w_root (readStruct_from fs i value ctx w).1)).
Proof.
  apply Type_Shape_Fields_ind; try (intros; simpl; apply keeps_refl).
  - intros n u s IH field name tag ctx w. exact (IH n u field name tag ctx w).
  - intros e IH n u field name tag ctx w. simpl.
    eapply keeps_trans; [apply alloc_keeps | apply IH].
  - intros fs IH n u field name tag ctx w. simpl. apply IH.
  - intros name tagstr exported ft IHt rest IHrest i value ctx w.
    rewrite !readStruct_from_cons.
    destruct (tag_skip (parseTag tagstr) || negb exported).
    + destruct (negb exported && negb (ctx_allowUnexported ctx));
        [apply keeps_refl | apply IHrest].
    + pose proof (IHt (value ++ [SField i]) name (parseTag tagstr) ctx w) as Ht.
      destruct (doRead ft (value ++ [SField i]) name (parseTag tagstr) ctx w)
        as [w1 err].
      simpl in Ht.
      destruct err; [|done..].
      eapply keeps_trans; [apply Ht | apply IHrest].
Qed.

Lemma parse_elem_keeps (ctx : context) (t : Type_) :
  forall elem w, keeps (w_root w) (w_root (parse_elem t elem ctx w).1).
Proof.
  apply (Type_mut
    (fun t => forall elem w,
       keeps (w_root w) (w_root (parse_elem t elem ctx w).1))
    (fun s => forall n u elem w,
       keeps (w_root w) (w_root (parse_elem (mkType n u s) elem ctx w).1))
    (fun fs => True));
    try done; try (intros; simpl; apply keeps_refl).
  - intros e IH n u elem w. simpl.
    eapply keeps_trans; [apply alloc_keeps | apply IH].
  - intros fs _ n u elem w. simpl. apply walk_keeps.
Qed.

(** X18.  Parsing writes to the configuration object only where a pointer
    is nil.  Every variable of the object that holds a boolean, a number,
    a string, a slice or a map before the walk holds the same value after
    it, whether the walk succeeds or stops with an error. *)
Theorem Parse_keeps_values (t : Type_) (conf : Value) (opts : Options)
    (q : list step) :
  holds_value (load conf q) = true ->
  load (w_root (ParseWithOptions t conf opts).1) q = load conf q.
Proof.
  revert q. change (keeps conf (w_root (ParseWithOptions t conf opts).1)).
  unfold ParseWithOptions. cbv zeta.
  destruct (t_shape t); try apply keeps_refl.
  destruct (IsNil conf); [apply keeps_refl|].
  apply (parse_elem_keeps _ _ _ (mkWalk conf [])).
Qed.

Lemma Parse_keeps_values_witness :
  load (w_root (ParseWithOptions guarded_t guarded_conf
                  (mkOptions "" false false)).1) [SElem; SField 0]
    = load guarded_conf [SElem; SField 0].
Proof.
  apply (Parse_keeps_values guarded_t guarded_conf (mkOptions "" false false)
           [SElem; SField 0]).
  vm_compute. reflexivity.
Defined.

(** ** The fields of a tag, token by token *)

Lemma classify_skip (t : tag) (v : string) :
  tag_skip (classify t v) = tag_skip t || String.eqb v "-".
Proof.
  unfold classify. destruct (String.eqb v "-"); simpl.
  - by rewrite orb_true_r.
  - rewrite orb_false_r.
    by destruct (String.eqb v "optional"), (strings_HasPrefix v "default="),
      (strings_HasPrefix v "note=").
Qed.

Lemma classify_optional (t : tag) (v : string) :
  tag_optional (classify t v) = tag_optional t || String.eqb v "optional".
Proof.
  unfold classify. destruct (String.eqb_spec v "-") as [->|_]; simpl.
  - by rewrite orb_false_r.
  - destruct (String.eqb v "optional"); simpl.
    + by rewrite orb_true_r.
    + rewrite orb_false_r.
      by destruct (strings_HasPrefix v "default="), (strings_HasPrefix v "note=").
Qed.

Lemma foldl_classify_skip (toks : list string) (t : tag) :
  tag_skip (foldl classify t toks) = true <->
  tag_skip t = true \/ "-" ∈ toks.
Proof.
  revert t. induction toks as [|v toks IH]; intros t; simpl.
  - rewrite elem_of_nil. tauto.
  - rewrite IH, classify_skip, orb_true_iff, String.eqb_eq, elem_of_cons.
    intuition congruence.
Qed.

Lemma foldl_classify_optional (toks : list string) (t : tag) :
  tag_optional (foldl classify t toks) = true <->
  tag_optional t = true \/ "optional" ∈ toks.
Proof.
  revert t. induction toks as [|v toks IH]; intros t; simpl.
  - rewrite elem_of_nil. tauto.
  - rewrite IH, classify_optional, orb_true_iff, String.eqb_eq, elem_of_cons.
    intuition congruence.
Qed.

Lemma prefix_clash (v : string) :
  strings_HasPrefix v "default=" = true -> strings_HasPrefix v "note=" = false.
Proof.
  destruct v as [|c v]; [done|]. unfold strings_HasPrefix.
  cbn [String.prefix].
  destruct (ascii_dec "d" c) as [<-|]; [|done]. intros _.
  by destruct (ascii_dec "n" "d") as [E|].
Qed.

Lemma classify_customName_eq (t : tag) (v : string) :
  tag_customName (classify t v) =
    if is_name_token v then v else tag_customName t.
Proof.
  unfold classify, is_name_token.
  by destruct (String.eqb v "-"), (String.eqb v "optional"),
    (strings_HasPrefix v "default="), (strings_HasPrefix v "note=").
Qed.

Lemma classify_defaultVal_eq (t : tag) (v : string) :
  tag_defaultVal (classify t v) =
    if strings_HasPrefix v "default=" then strings_TrimPrefix v "default="
    else tag_defaultVal t.
Proof.
  unfold classify. destruct (String.eqb_spec v "-") as [->|_]; [done|].
  destruct (String.eqb_spec v "optional") as [->|_]; [done|].
  by destruct (strings_HasPrefix v "default="), (strings_HasPrefix v "note=").
Qed.

Lemma classify_note_eq (t : tag) (v : string) :
  tag_note (classify t v) =
    if strings_HasPrefix v "note=" then strings_TrimPrefix v "note="
    else tag_note t.
Proof.
  unfold classify. destruct (String.eqb_spec v "-") as [->|_]; [done|].
  destruct (String.eqb_spec v "optional") as [->|_]; [done|].
  destruct (strings_HasPrefix v "default=") eqn:Ed.
  - by rewrite (prefix_clash v Ed).
  - by destruct (strings_HasPrefix v "note=").
Qed.

Lemma last_cons_default {A : Type} (l : list A) (v d : A) :
  List.last (v :: l) d = List.last l v.
Proof.
  revert v d. induction l as [|a l IH]; intros v d; [done|].
  change (List.last (v :: a :: l) d) with (List.last (a :: l) d).
  by rewrite !(IH a).
Qed.

Lemma foldl_classify_customName (toks : list string) (t : tag) :
  tag_customName (foldl classify t toks) =
    List.last (List.filter is_name_token toks) (tag_customName t).
Proof.
  revert t. induction toks as [|v toks IH]; intros t; [done|].
  cbn [foldl List.filter]. rewrite IH, classify_customName_eq.
  destruct (is_name_token v); [by rewrite last_cons_default | done].
Qed.

Lemma foldl_classify_defaultVal (toks : list string) (t : tag) :
  tag_defaultVal (foldl classify t toks) =
    List.last
      (List.map (fun v => strings_TrimPrefix v "default=")
         (List.filter (fun v => strings_HasPrefix v "default=") toks))
      (tag_defaultVal t).
Proof.
  revert t. induction toks as [|v toks IH]; intros t; [done|].
  cbn [foldl List.filter]. rewrite IH, classify_defaultVal_eq.
  destruct (strings_HasPrefix v "default=");
    [cbn [List.map]; by rewrite last_cons_default | done].
Qed.

Lemma foldl_classify_note (toks : list string) (t : tag) :
  tag_note (foldl classify t toks) =
    List.last
      (List.map (fun v => strings_TrimPrefix v "note=")
         (List.filter (fun v => strings_HasPrefix v "note=") toks))
      (tag_note t).
Proof.
  revert t. induction toks as [|v toks IH]; intros t; [done|].
  cbn [foldl List.filter]. rewrite IH, classify_note_eq.
  destruct (strings_HasPrefix v "note=");
    [cbn [List.map]; by rewrite last_cons_default | done].
Qed.

(** X19.  The two flags of a tag do not depend on where their directive
    stands nor on the other directives: the skip flag is set exactly when
    one of the tokens of the tag is [-], the optional flag exactly when
    one is [optional]. *)
Theorem parseTag_flags (s : string) :
  (tag_skip (parseTag s) = true <-> "-" ∈ tag_tokens s) /\
  (tag_optional (parseTag s) = true <-> "optional" ∈ tag_tokens s).
Proof.
  unfold parseTag. split.
  - rewrite foldl_classify_skip. simpl. intuition congruence.
  - rewrite foldl_classify_optional. simpl. intuition congruence.
Qed.

(** X20.  Of several directives of one kind the last one counts.  The
    custom name of a tag is its last token that is neither [-] nor
    [optional] nor starts with [default=] or [note=]; the default is what
    follows [default=] in the last token that starts with it, the note
    what follows [note=] in the last token that starts with it; each is
    empty when the tag has no such token. *)
Theorem parseTag_last_wins (s : string) :
  tag_customName (parseTag s) =
    List.last (List.filter is_name_token (tag_tokens s)) "" /\
  tag_defaultVal (parseTag s) =
    List.last
      (List.map (fun v => strings_TrimPrefix v "default=")
         (List.filter (fun v => strings_HasPrefix v "default=") (tag_tokens s)))
      "" /\
  tag_note (parseTag s) =
    List.last
      (List.map (fun v => strings_TrimPrefix v "note=")
         (List.filter (fun v => strings_HasPrefix v "note=") (tag_tokens s)))
      "".
Proof.
  unfold parseTag.
  rewrite foldl_classify_customName, foldl_classify_defaultVal,
    foldl_classify_note.
  done.
Qed.

(** X21.  The empty token is a name.  A tag that ends in a comma which no
    backslash escapes has the empty custom name, whatever name stands
    before the comma; its other fields are those of the tag without the
    comma. *)
Theorem parseTag_trailing_comma (s : string) :
  (scan_tag s false [""]).1 = false ->
  parseTag (s +:+ ",") =
    mkTag "" (tag_optional (parseTag s)) (tag_skip (parseTag s))
          (tag_defaultVal (parseTag s)) (tag_note (parseTag s)).
Proof.
  intros He. unfold parseTag, tag_tokens.
  rewrite scan_tag_app, He.
  change (scan_tag "," false (scan_tag s false [""]).2)
    with (false, (scan_tag s false [""]).2 ++ [""]).
  cbn [snd]. by rewrite foldl_app.
Qed.

Lemma parseTag_trailing_comma_witness :
  parseTag "HOST,optional," = mkTag "" true false "" "".
Proof.
  apply (parseTag_trailing_comma "HOST,optional"). reflexivity.
Defined.
